(** * gomigrate: migration resolution and execution

    A shallow embedding of [loadMigrations], [parseMigrationFileName],
    [execMigration] and [Migrate] of package gomigrate, together with the
    parts of the Go standard library they call ([strings], [strconv],
    [path], [slices]), and the properties of the resolver, the
    transactional executor and the orchestrator. *)

From Stdlib Require Import ZArith Ascii String List Bool Lia Sorted Permutation.
From stdpp Require Import base tactics option list strings sorting.

Local Open Scope Z_scope.

(* ===================================================================== *)
(** * Go strings

    A Go string is a sequence of bytes; [string] (a list of 8-bit
    [ascii]) is exactly that.  Slicing [s[:n]] and [s[n:]] is [str_take]
    and [str_drop]. *)
(* ===================================================================== *)

Module GoStrings.

Fixpoint str_take (n : nat) (s : string) : string :=
  match n, s with
  | S n', String c s' => String c (str_take n' s')
  | _, _ => EmptyString
  end.

Fixpoint str_drop (n : nat) (s : string) : string :=
  match n, s with
  | S n', String _ s' => str_drop n' s'
  | _, _ => s
  end.

(** [strings.HasPrefix]: [len(s) >= len(prefix) && s[:len(prefix)] == prefix]. *)
Fixpoint HasPrefix (s prefix : string) {struct prefix} : bool :=
  match prefix, s with
  | EmptyString, _ => true
  | String p prefix', String c s' => Ascii.eqb c p && HasPrefix s' prefix'
  | String _ _, EmptyString => false
  end.

(** [strings.HasSuffix]: [len(s) >= len(suffix) && s[len(s)-len(suffix):] == suffix]. *)
Definition HasSuffix (s suffix : string) : bool :=
  (String.length suffix <=? String.length s)%nat
  && String.eqb (str_drop (String.length s - String.length suffix) s) suffix.

(** [strings.CutSuffix]: the string without the suffix and whether it was there. *)
Definition CutSuffix (s suffix : string) : string * bool :=
  if HasSuffix s suffix
  then (str_take (String.length s - String.length suffix) s, true)
  else (s, false).

(** [strings.Index]: the index of the first instance of [substr] in [s];
    Go's [-1] is [None]. *)
Fixpoint Index (s substr : string) : option nat :=
  if HasPrefix s substr then Some 0%nat
  else match s with
       | EmptyString => None
       | String _ s' => S <$> Index s' substr
       end.

(** [strings.SplitN(s, sep, n)] for a non-empty [sep] and [n >= 0]
    ([genSplit]): at most [n] pieces, the last one the unsplit rest. *)
Fixpoint SplitN (s sep : string) (n : nat) : list string :=
  match n with
  | O => []
  | S n' =>
      match n' with
      | O => [s]
      | S _ =>
          match Index s sep with
          | None => [s]
          | Some m => str_take m s :: SplitN (str_drop (m + String.length sep) s) sep n'
          end
      end
  end.

(** [strings.ReplaceAll(s, old, new)] for a non-empty [old]: the
    occurrences are taken left to right and do not overlap; [skip] counts
    the bytes of an occurrence still to pass over. *)
Fixpoint replaceFrom (skip : nat) (s old new : string) : string :=
  match s with
  | EmptyString => EmptyString
  | String c s' =>
      match skip with
      | S k => replaceFrom k s' old new
      | O =>
          if HasPrefix s old
          then new +:+ replaceFrom (String.length old - 1) s' old new
          else String c (replaceFrom O s' old new)
      end
  end.

Definition ReplaceAll (s old new : string) : string := replaceFrom 0 s old new.

(** The bytes of a string, and membership of a byte. *)
Fixpoint bytes (s : string) : list ascii :=
  match s with
  | EmptyString => []
  | String c s' => c :: bytes s'
  end.

End GoStrings.
Export GoStrings.

(* ===================================================================== *)
(** * Go's [int] and [error] *)
(* ===================================================================== *)

(** [int] is a 64-bit two's complement integer; arithmetic wraps around. *)
Definition intSize : Z := 64.
Definition minInt : Z := - 2 ^ (intSize - 1).
Definition maxInt : Z := 2 ^ (intSize - 1) - 1.

Definition wrap (z : Z) : Z := (z + 2 ^ (intSize - 1)) mod 2 ^ intSize - 2 ^ (intSize - 1).

Definition int_sub (a b : Z) : Z := wrap (a - b).

Definition is_int (z : Z) : Prop := minInt <= z <= maxInt.

(** An error value.  [fmt.Errorf] is kept as its format and operands;
    the other constructors are the error types the package builds or
    receives from [strconv]. *)
Inductive error : Type :=
| errors_New (text : string)
| fmt_Errorf (format : string) (args : list fmt_arg)
| NumError (Func Num : string) (Err : error)
| MigrateError (Name FileName : string) (Version : Z) (Err : error)
with fmt_arg : Type :=
| ArgString (s : string)
| ArgInt (n : Z)
| ArgError (e : error).

Inductive result (A : Type) : Type :=
| Ok (a : A)
| Err (e : error).
Arguments Ok {A} a.
Arguments Err {A} e.

Definition isOk {A} (r : result A) : bool :=
  match r with Ok _ => true | Err _ => false end.

(** The operand of the [%w] verb of a [fmt.Errorf] call. *)
Fixpoint firstError (args : list fmt_arg) : option error :=
  match args with
  | [] => None
  | ArgError e :: _ => Some e
  | _ :: rest => firstError rest
  end.

(** [errors.Unwrap]: the [Unwrap] method of a [MigrateError] returns its
    [Err], so does the one of a [NumError]; an error made by [fmt.Errorf]
    with [%w] unwraps to that operand. *)
Definition Unwrap (e : error) : option error :=
  match e with
  | errors_New _ => None
  | fmt_Errorf format args =>
      match Index format "%w" with
      | Some _ => firstError args
      | None => None
      end
  | NumError _ _ err => Some err
  | MigrateError _ _ _ err => Some err
  end.

(* ===================================================================== *)
(** * [strconv.Atoi] *)
(* ===================================================================== *)

Module strconv.

Definition ErrSyntax : error := errors_New "invalid syntax".
Definition ErrRange : error := errors_New "value out of range".

Definition isDigit (c : ascii) : bool :=
  (48 <=? nat_of_ascii c)%nat && (nat_of_ascii c <=? 57)%nat.

Definition digitVal (c : ascii) : Z := Z.of_nat (nat_of_ascii c) - 48.

Inductive scan : Type :=
| ScanOk (n : Z)
| ScanSyntax
| ScanRange.

(** The loop of [ParseUint(s, 10, 64)]: a byte that is no digit is a
    syntax error, a value beyond [uint64] a range error, whichever comes
    first from the left. *)
Fixpoint parseUintLoop (s : string) (n : Z) : scan :=
  match s with
  | EmptyString => ScanOk n
  | String c s' =>
      if isDigit c then
        if (2 ^ 64 - 1) / 10 + 1 <=? n then ScanRange
        else
          let n1 := n * 10 + digitVal c in
          if 2 ^ 64 - 1 <? n1 then ScanRange else parseUintLoop s' n1
      else ScanSyntax
  end.

(** [Atoi(s)] is [ParseInt(s, 10, 0)] with the error's [Func] set to
    ["Atoi"] (the fast path for short strings returns the same). *)
Definition Atoi (s : string) : result Z :=
  let syntaxError := Err (NumError "Atoi" s ErrSyntax) in
  let rangeError := Err (NumError "Atoi" s ErrRange) in
  match s with
  | EmptyString => syntaxError
  | String c s' =>
      let neg := Ascii.eqb c "-" in
      let body := if Ascii.eqb c "+" || neg then s' else s in
      match body with
      | EmptyString => syntaxError
      | _ =>
          match parseUintLoop body 0 with
          | ScanSyntax => syntaxError
          | ScanRange => rangeError
          | ScanOk un =>
              if negb neg && (2 ^ (intSize - 1) <=? un) then rangeError
              else if neg && (2 ^ (intSize - 1) <? un) then rangeError
              else Ok (if neg then - un else un)
          end
      end
  end.

End strconv.

(* ===================================================================== *)
(** * [path.Join] *)
(* ===================================================================== *)

Module path.

(** The slash-separated elements of a path. *)
Fixpoint elements (s cur : string) : list string :=
  match s with
  | EmptyString => [cur]
  | String c s' =>
      if Ascii.eqb c "/" then cur :: elements s' EmptyString
      else elements s' (cur +:+ String c EmptyString)
  end.

(** One element of [Clean]'s scan; [out] is the output so far, last
    element first. *)
Definition cleanStep (rooted : bool) (out : list string) (el : string) : list string :=
  if String.eqb el "" || String.eqb el "." then out
  else if String.eqb el ".." then
    match out with
    | top :: below => if String.eqb top ".." then el :: out else below
    | [] => if rooted then out else [el]
    end
  else el :: out.

Fixpoint joinSlash (els : list string) : string :=
  match els with
  | [] => ""
  | [e] => e
  | e :: rest => e +:+ "/" +:+ joinSlash rest
  end.

(** [path.Clean]: no empty and no [.] elements, no inner [..], no [..]
    at the start of a rooted path, ["."] for the empty result. *)
Definition Clean (p : string) : string :=
  match p with
  | EmptyString => "."
  | String c _ =>
      let rooted := Ascii.eqb c "/" in
      let out := rev (fold_left (cleanStep rooted) (elements p "") []) in
      if rooted then "/" +:+ joinSlash out
      else match out with [] => "." | _ => joinSlash out end
  end.

(** [path.Join]: the non-empty elements joined by slashes, then cleaned;
    the empty string when there is none. *)
Definition Join (elem : list string) : string :=
  match filter (fun e => e <> "") elem with
  | [] => ""
  | els => Clean (joinSlash els)
  end.

End path.

(* ===================================================================== *)
(** * Migrations and their file names *)
(* ===================================================================== *)

Definition defaultDirectory : string := "migrations".
Definition defaultTableName : string := "gomigrate".
Definition migrationFileExt : string := ".sql".
Definition migrationSeparator : string := "_".
Definition migrationDriverSeparator : string := ".".

Definition ErrNoDatabase : error := errors_New "no database provided".
Definition ErrNoDriver : error := errors_New "no driver provided".

Record migration : Type := {
  name : string;
  version : Z;
  driver : string;
  filePath : string
}.

Global Instance migration_eq_dec : EqDecision migration.
Proof. solve_decision. Defined.

Global Instance migration_inhabited : Inhabited migration :=
  populate {| name := ""; version := 0; driver := ""; filePath := "" |}.

Definition parseMigrationFileName (dir fileName : string) : result migration :=
  let '(name0, ok) := CutSuffix fileName migrationFileExt in
  if negb ok then
    Err (fmt_Errorf "invalid migration file extension: %s" [ArgString fileName])
  else
    let parts := SplitN name0 migrationDriverSeparator 2 in
    let '(driver1, name1) :=
      if (1 <? length parts)%nat then (parts !!! 1%nat, parts !!! 0%nat)
      else (EmptyString, name0) in
    let parts := SplitN name1 migrationSeparator 2 in
    if negb (length parts =? 2)%nat then
      Err (fmt_Errorf "invalid migration file name: %s" [ArgString fileName])
    else
      let name2 := ReplaceAll (parts !!! 1%nat) "_" " " in
      match strconv.Atoi (parts !!! 0%nat) with
      | Err err =>
          Err (fmt_Errorf "failed to parse migration version: %w" [ArgError err])
      | Ok version0 =>
          Ok {| name := name2;
                version := version0;
                driver := driver1;
                filePath := path.Join [dir; fileName] |}
      end.

(* ===================================================================== *)
(** * [slices.SortFunc] *)
(* ===================================================================== *)

Module slices.
Section SortFunc.
Context {E : Type} (cmp : E -> E -> Z).

(** The inner loop of [insertionSortCmpFunc]: the new element moves left
    while it compares below its left neighbour.  [sorted] is the part
    already in order, last element first. *)
Fixpoint sink (x : E) (sorted : list E) : list E :=
  match sorted with
  | [] => [x]
  | y :: below => if cmp x y <? 0 then y :: sink x below else x :: sorted
  end.

Definition insertionSortCmpFunc (data : list E) : list E :=
  rev (fold_left (fun sorted x => sink x sorted) data []).

(** [slices.SortFunc] runs [insertionSortCmpFunc] on a slice of at most
    twelve elements.  A longer slice is partitioned first; the outcome is
    the same list whenever [cmp] orders the elements strictly and totally,
    since then only one arrangement is in order. *)
Definition SortFunc (x : list E) : list E := insertionSortCmpFunc x.

End SortFunc.
End slices.

(* ===================================================================== *)
(** * The file source and the resolver *)
(* ===================================================================== *)

(** An entry of a directory listing ([fs.DirEntry]). *)
Record DirEntry : Type := {
  Name : string;
  IsDir : bool
}.

(** The read-only file source ([embed.FS]). *)
Record FS : Type := {
  ReadDir : string -> result (list DirEntry);
  ReadFile : string -> result string
}.

Definition duplicateError (mig m : migration) : error :=
  fmt_Errorf "duplicate migration version and driver: version=%d, driver1=%s, driver2=%s"
    [ArgInt mig.(version); ArgString m.(driver); ArgString mig.(driver)].

(** The inner loop of [loadMigrations], [for i, m := range migrations],
    from index [i] on, [rest] being [migrations[i:]].  [None]: the loop
    ran to its end.  [Some (Err _)]: the function returns.  [Some (Ok ms)]:
    [continue outer] with [ms] as the slice. *)
Fixpoint findVersion (activeDriver : string) (mig : migration)
    (migrations : list migration) (i : nat) (rest : list migration)
    : option (result (list migration)) :=
  match rest with
  | [] => None
  | m :: rest' =>
      if m.(version) =? mig.(version) then
        if String.eqb m.(driver) mig.(driver) then Some (Err (duplicateError mig m))
        else if String.eqb mig.(driver) activeDriver
             then Some (Ok (<[i := mig]> migrations))
             else Some (Ok migrations)
      else findVersion activeDriver mig migrations (S i) rest'
  end.

(** One turn of the outer loop of [loadMigrations].  The parser returns
    a migration whenever it returns no error, so the test [mig == nil]
    of the source never holds and has no branch here. *)
Definition loadEntry (dir activeDriver : string) (migrations : list migration)
    (entry : DirEntry) : result (list migration) :=
  if entry.(IsDir) then Ok migrations
  else
    let fileName := entry.(Name) in
    if negb (HasSuffix fileName migrationFileExt) then Ok migrations
    else
      match parseMigrationFileName dir fileName with
      | Err err => Err (fmt_Errorf "failed to parse migration file name: %w" [ArgError err])
      | Ok mig =>
          if negb (String.eqb mig.(driver) "") && negb (String.eqb mig.(driver) activeDriver)
          then Ok migrations
          else
            match findVersion activeDriver mig migrations 0 migrations with
            | Some (Err err) => Err err
            | Some (Ok migrations') => Ok migrations'
            | None => Ok (migrations ++ [mig])
            end
      end.

(** The outer loop, [for _, entry := range entries]. *)
Fixpoint loadEntries (dir activeDriver : string) (entries : list DirEntry)
    (migrations : list migration) : result (list migration) :=
  match entries with
  | [] => Ok migrations
  | entry :: entries' =>
      match loadEntry dir activeDriver migrations entry with
      | Err err => Err err
      | Ok migrations' => loadEntries dir activeDriver entries' migrations'
      end
  end.

Definition compareVersions (m1 m2 : migration) : Z :=
  int_sub m1.(version) m2.(version).

Definition loadMigrations (fs : FS) (dir activeDriver : string) : result (list migration) :=
  match fs.(ReadDir) dir with
  | Err err =>
      Err (fmt_Errorf "failed to read migrations directory '%s': %w" [ArgString dir; ArgError err])
  | Ok entries =>
      match loadEntries dir activeDriver entries [] with
      | Err err => Err err
      | Ok migrations => Ok (slices.SortFunc compareVersions migrations)
      end
  end.

(** An in-memory file source: one directory [dir] with the files
    [files] (name and content), listed in the given order. *)
Module Fixture.

Definition file (name : string) : DirEntry := {| Name := name; IsDir := false |}.

Definition notExist : error := errors_New "file does not exist".

Fixpoint lookupFile (dir p : string) (files : list (string * string)) : result string :=
  match files with
  | [] => Err notExist
  | (n, content) :: rest =>
      if String.eqb p (path.Join [dir; n]) then Ok content else lookupFile dir p rest
  end.

Definition memFS (dir : string) (files : list (string * string)) : FS :=
  {| ReadDir := fun d => if String.eqb d dir then Ok (map (fun f => file (fst f)) files)
                         else Err notExist;
     ReadFile := fun p => lookupFile dir p files |}.

(** A listing of file names without content. *)
Definition listing (dir : string) (names : list string) : FS :=
  memFS dir (map (fun n => (n, EmptyString)) names).

End Fixture.

(* ===================================================================== *)
(** * The database, the driver and the configuration

    [W] is the state of everything behind the connection.  A call of a
    collaborator is a function on [W]; the embedding threads [W] and keeps
    the list of the calls made, in order. *)
(* ===================================================================== *)

Module sql.
(** A transaction handle ([*sql.Tx]) with the methods the package calls;
    the [sql.Result] of [ExecContext] is dropped by the caller. *)
Record Tx (W : Type) : Type := {
  ExecContext : string -> W -> option error * W;
  Rollback : W -> option error * W;
  Commit : W -> option error * W
}.
Arguments ExecContext {W} _ _ _.
Arguments Rollback {W} _ _.
Arguments Commit {W} _ _.
End sql.

(** [Queryer]: of its three methods the package itself calls [BeginTx]
    only (the other two are for the drivers). *)
Record Queryer (W : Type) : Type := {
  BeginTx : W -> result (sql.Tx W) * W
}.
Arguments BeginTx {W} _ _.

Module Driver.
Record t (W : Type) : Type := {
  Name : string;
  CreateVersionTable : W -> option error * W;
  GetVersion : W -> result Z * W;
  AddVersion : sql.Tx W -> Z -> W -> option error * W
}.
Arguments Name {W} _.
Arguments CreateVersionTable {W} _ _.
Arguments GetVersion {W} _ _.
Arguments AddVersion {W} _ _ _ _.
End Driver.

Definition NewDriver (W : Type) : Type := Queryer W -> string -> Driver.t W.

(** The calls on the database side, as they are made. *)
Inductive call : Type :=
| CallCreateVersionTable
| CallGetVersion
| CallBeginTx
| CallExecContext (query : string)
| CallAddVersion (version : Z)
| CallRollback
| CallCommit.

Global Instance call_eq_dec : EqDecision call.
Proof. solve_decision. Defined.

Record state (W : Type) : Type := {
  world : W;
  calls : list call
}.
Arguments world {W} _.
Arguments calls {W} _.

Definition M (W A : Type) : Type := state W -> A * state W.

Global Instance M_ret {W} : MRet (M W) := fun A a s => (a, s).
Global Instance M_bind {W} : MBind (M W) :=
  fun A B f m s => let '(a, s') := m s in f a s'.

(** A call of a collaborator: it acts on the world and is recorded. *)
Definition perform {W A} (c : call) (op : W -> A * W) : M W A :=
  fun s =>
    let '(a, w') := op s.(world) in
    (a, {| world := w'; calls := s.(calls) ++ [c] |}).

(** The configuration and its options. *)
Inductive slog_Logger : Type :=
| slog_Default
| slog_Custom (id : nat).

Record config : Type := {
  Directory : string;
  TableName : string;
  Logger : slog_Logger
}.

Definition defaultConfig : config :=
  {| Directory := defaultDirectory; TableName := defaultTableName; Logger := slog_Default |}.

Definition Option : Type := config -> config.

Definition apply (c : config) (opts : list Option) : config :=
  fold_left (fun c opt => opt c) opts c.

Definition WithDirectory (dir : string) : Option :=
  fun c => {| Directory := dir; TableName := c.(TableName); Logger := c.(Logger) |}.

Definition WithTableName (name : string) : Option :=
  fun c => {| Directory := c.(Directory); TableName := name; Logger := c.(Logger) |}.

Definition WithLogger (l : slog_Logger) : Option :=
  fun c => {| Directory := c.(Directory); TableName := c.(TableName); Logger := l |}.

(* ===================================================================== *)
(** * The transactional executor and the orchestrator *)
(* ===================================================================== *)

Definition wrapMigrateErr (name fileName : string) (version : Z) (err : error) : error :=
  MigrateError name fileName version err.

Section Migrate.
Context {W : Type}.

Definition execMigration (db : Queryer W) (driver : Driver.t W) (m : migration) (fs : FS)
    : M W (option error) :=
  match fs.(ReadFile) m.(filePath) with
  | Err err => mret (Some (fmt_Errorf "failed to read migration file: %w" [ArgError err]))
  | Ok data =>
      r ← perform CallBeginTx (BeginTx db);
      match r with
      | Err err => mret (Some (fmt_Errorf "failed to start transaction: %w" [ArgError err]))
      | Ok tx =>
          err ← perform (CallExecContext data) (sql.ExecContext tx data);
          match err with
          | Some err =>
              _ ← perform CallRollback (sql.Rollback tx);
              mret (Some (fmt_Errorf "failed to execute migration: %w" [ArgError err]))
          | None =>
              err ← perform (CallAddVersion m.(version)) (Driver.AddVersion driver tx m.(version));
              match err with
              | Some err =>
                  _ ← perform CallRollback (sql.Rollback tx);
                  mret (Some (fmt_Errorf "failed to set version: %w" [ArgError err]))
              | None => perform CallCommit (sql.Commit tx)
              end
          end
      end
  end.

(** The loop [for _, m := range migrations] of [Migrate]. *)
Fixpoint applyMigrations (db : Queryer W) (driver : Driver.t W) (fs : FS)
    (currentVersion : Z) (migrations : list migration) : M W (option error) :=
  match migrations with
  | [] => mret None
  | m :: rest =>
      if m.(version) <=? currentVersion
      then applyMigrations db driver fs currentVersion rest
      else
        err ← execMigration db driver m fs;
        match err with
        | Some err => mret (Some (wrapMigrateErr m.(name) m.(filePath) m.(version) err))
        | None => applyMigrations db driver fs currentVersion rest
        end
  end.

Definition Migrate (db : option (Queryer W)) (newDriver : option (NewDriver W)) (fs : FS)
    (opts : list Option) : M W (option error) :=
  match db with
  | None => mret (Some ErrNoDatabase)
  | Some db =>
  match newDriver with
  | None => mret (Some ErrNoDriver)
  | Some newDriver =>
      let cfg := apply defaultConfig opts in
      let driver := newDriver db cfg.(TableName) in
      match loadMigrations fs cfg.(Directory) (Driver.Name driver) with
      | Err err => mret (Some (fmt_Errorf "failed to load migrations: %w" [ArgError err]))
      | Ok migrations =>
          if (length migrations =? 0)%nat then
            mret (Some (fmt_Errorf "no migrations found in %s" [ArgString cfg.(Directory)]))
          else
            err ← perform CallCreateVersionTable (Driver.CreateVersionTable driver);
            match err with
            | Some err =>
                mret (Some (fmt_Errorf "failed to create version table: %w" [ArgError err]))
            | None =>
                r ← perform CallGetVersion (Driver.GetVersion driver);
                match r with
                | Err err =>
                    mret (Some (fmt_Errorf "failed to get current version: %w" [ArgError err]))
                | Ok currentVersion =>
                    let lastMigration := migrations !!! (length migrations - 1)%nat in
                    if currentVersion =? lastMigration.(version) then mret None
                    else if lastMigration.(version) <? currentVersion then
                      mret (Some (fmt_Errorf
                        "schema version is ahead of migrations: current=%d, latest=%d"
                        [ArgInt currentVersion; ArgInt lastMigration.(version)]))
                    else applyMigrations db driver fs currentVersion migrations
                end
            end
      end
  end
  end.

End Migrate.

(* ===================================================================== *)
(** * An in-memory database

    A connection, its transactions and a driver over a small store: the
    statements and the version rows that are committed, and those of the
    open transaction, which reach the store on [Commit] only.  The
    statement [rejected] fails to execute. *)
(* ===================================================================== *)

Module MemDB.

Record store : Type := {
  tables : list string;
  statements : list string;
  rows : list Z;
  pending : option (list string * list Z)
}.

Definition empty : store :=
  {| tables := []; statements := []; rows := []; pending := None |}.

Definition ErrTxDone : error :=
  errors_New "sql: transaction has already been committed or rolled back".

Definition rejected : string := "SYNTAX ERROR".

Definition setPending (w : store) (p : option (list string * list Z)) : store :=
  {| tables := w.(tables); statements := w.(statements); rows := w.(rows); pending := p |}.

Definition tx : sql.Tx store :=
  {| sql.ExecContext := fun query w =>
       match w.(pending) with
       | None => (Some ErrTxDone, w)
       | Some (qs, vs) =>
           if String.eqb query rejected then (Some (errors_New "syntax error"), w)
           else (None, setPending w (Some (qs ++ [query], vs)))
       end;
     sql.Rollback := fun w =>
       match w.(pending) with
       | None => (Some ErrTxDone, w)
       | Some _ => (None, setPending w None)
       end;
     sql.Commit := fun w =>
       match w.(pending) with
       | None => (Some ErrTxDone, w)
       | Some (qs, vs) =>
           (None, {| tables := w.(tables); statements := w.(statements) ++ qs;
                     rows := w.(rows) ++ vs; pending := None |})
       end |}.

Definition db : Queryer store :=
  {| BeginTx := fun w => (Ok tx, setPending w (Some ([], []))) |}.

Definition maxRow (rs : list Z) : Z :=
  match rs with
  | [] => 0
  | r :: rs' => fold_left Z.max rs' r
  end.

(** A driver in the manner of the ones of the repository: the table is
    created if it is not there, the version is the greatest row or zero,
    a row is written through the transaction. *)
Definition newDriver (driverName : string) : NewDriver store :=
  fun _ tableName =>
    {| Driver.Name := driverName;
       Driver.CreateVersionTable := fun w =>
         (None, if bool_decide (tableName ∈ w.(tables)) then w
                else {| tables := w.(tables) ++ [tableName]; statements := w.(statements);
                        rows := w.(rows); pending := w.(pending) |});
       Driver.GetVersion := fun w => (Ok (maxRow w.(rows)), w);
       Driver.AddVersion := fun _ v w =>
         match w.(pending) with
         | None => (Some ErrTxDone, w)
         | Some (qs, vs) =>
             if bool_decide (v ∈ w.(rows) ++ vs)
             then (Some (errors_New "UNIQUE constraint failed"), w)
             else (None, setPending w (Some (qs, vs ++ [v])))
         end |}.

(** What is durable: everything but the open transaction. *)
Definition durable (w : store) : list string * list string * list Z :=
  (w.(tables), w.(statements), w.(rows)).

Definition start (w : store) : state store := {| world := w; calls := [] |}.

End MemDB.

(* ===================================================================== *)
(** * Notions used in the statements *)
(* ===================================================================== *)

(** The value of a string of decimal digits, read after the value [n]
    of the digits before it; and read from the start. *)
Definition decimalFrom (n : Z) (digits : string) : Z :=
  fold_left (fun n c => n * 10 + strconv.digitVal c) (bytes digits) n.

Definition decimalValue (digits : string) : Z := decimalFrom 0 digits.

Definition allDigits (s : string) : Prop :=
  Forall (fun c => strconv.isDigit c = true) (bytes s).

(** [IntLiteral s n]: [s] is an optional sign and one or more decimal
    digits, and its value [n] fits in an [int]. *)
Inductive IntLiteral : string -> Z -> Prop :=
| lit_unsigned d :
    d <> "" -> allDigits d -> decimalValue d <= maxInt ->
    IntLiteral d (decimalValue d)
| lit_plus d :
    d <> "" -> allDigits d -> decimalValue d <= maxInt ->
    IntLiteral (String "+" d) (decimalValue d)
| lit_minus d :
    d <> "" -> allDigits d -> decimalValue d <= - minInt ->
    IntLiteral (String "-" d) (- decimalValue d).

(** The stem of a file name in front of its extension: [base] alone, or
    [base], a dot and a driver tag. *)
Definition withTag (base : string) (tag : option string) : string :=
  match tag with
  | None => base
  | Some t => base +:+ "." +:+ t
  end.

(** A migration passes the driver filter: it is universal or carries
    the tag of the active driver. *)
Definition keptFor (activeDriver : string) (m : migration) : Prop :=
  m.(driver) = "" \/ m.(driver) = activeDriver.

(** [entry] is a file of the listing that the resolver parses to [mig]
    and keeps for the active driver. *)
Definition enumerates (dir activeDriver : string) (entry : DirEntry) (mig : migration) : Prop :=
  entry.(IsDir) = false
  /\ HasSuffix entry.(Name) migrationFileExt = true
  /\ parseMigrationFileName dir entry.(Name) = Ok mig
  /\ keptFor activeDriver mig.

(** The slice of the resolver holds kept migrations only, with versions
    that are [int]s, and no version twice. *)
Definition resolved (activeDriver : string) (migrations : list migration) : Prop :=
  Forall (keptFor activeDriver) migrations
  /\ Forall (fun m => is_int m.(version)) migrations
  /\ NoDup (map version migrations).

(** [m] is the element of the slice that the inner loop finds for
    version [v]: the first one with that version. *)
Definition holdsSlot (migrations : list migration) (i : nat) (m : migration) (v : Z) : Prop :=
  migrations !! i = Some m
  /\ m.(version) = v
  /\ forall j m', (j < i)%nat -> migrations !! j = Some m' -> m'.(version) <> v.

(** Ascending by version: every element is below its right neighbour. *)
Definition ascending (migrations : list migration) : Prop :=
  forall i a b,
    migrations !! i = Some a -> migrations !! S i = Some b -> a.(version) < b.(version).

Definition versionLt (a b : migration) : Prop := a.(version) < b.(version).
Definition versionLe (a b : migration) : Prop := a.(version) <= b.(version).

(** No difference of two versions of the list leaves the range of [int]. *)
Definition differencesFit (migrations : list migration) : Prop :=
  forall a b, a ∈ migrations -> b ∈ migrations ->
    minInt <= a.(version) - b.(version) <= maxInt.

Fixpoint ascendingb (migrations : list migration) : bool :=
  match migrations with
  | a :: (b :: _) as rest => (a.(version) <? b.(version)) && ascendingb rest
  | _ => true
  end.

Section Runs.
Context {W : Type} (db : Queryer W) (driver : Driver.t W) (fs : FS).

(** The calls one run of the executor makes and what it returns, case
    by case. *)
Inductive execRun (m : migration) (s : state W) : option error -> state W -> Prop :=
| run_unreadable err :
    fs.(ReadFile) m.(filePath) = Err err ->
    execRun m s (Some (fmt_Errorf "failed to read migration file: %w" [ArgError err])) s
| run_no_transaction data err w1 :
    fs.(ReadFile) m.(filePath) = Ok data ->
    BeginTx db s.(world) = (Err err, w1) ->
    execRun m s (Some (fmt_Errorf "failed to start transaction: %w" [ArgError err]))
      {| world := w1; calls := s.(calls) ++ [CallBeginTx] |}
| run_exec_failed data tx w1 err w2 rb w3 :
    fs.(ReadFile) m.(filePath) = Ok data ->
    BeginTx db s.(world) = (Ok tx, w1) ->
    sql.ExecContext tx data w1 = (Some err, w2) ->
    sql.Rollback tx w2 = (rb, w3) ->
    execRun m s (Some (fmt_Errorf "failed to execute migration: %w" [ArgError err]))
      {| world := w3;
         calls := s.(calls) ++ [CallBeginTx; CallExecContext data; CallRollback] |}
| run_version_failed data tx w1 w2 err w3 rb w4 :
    fs.(ReadFile) m.(filePath) = Ok data ->
    BeginTx db s.(world) = (Ok tx, w1) ->
    sql.ExecContext tx data w1 = (None, w2) ->
    Driver.AddVersion driver tx m.(version) w2 = (Some err, w3) ->
    sql.Rollback tx w3 = (rb, w4) ->
    execRun m s (Some (fmt_Errorf "failed to set version: %w" [ArgError err]))
      {| world := w4;
         calls := s.(calls) ++ [CallBeginTx; CallExecContext data;
                                CallAddVersion m.(version); CallRollback] |}
| run_commit data tx w1 w2 w3 r w4 :
    fs.(ReadFile) m.(filePath) = Ok data ->
    BeginTx db s.(world) = (Ok tx, w1) ->
    sql.ExecContext tx data w1 = (None, w2) ->
    Driver.AddVersion driver tx m.(version) w2 = (None, w3) ->
    sql.Commit tx w3 = (r, w4) ->
    execRun m s r
      {| world := w4;
         calls := s.(calls) ++ [CallBeginTx; CallExecContext data;
                                CallAddVersion m.(version); CallCommit] |}.

(** The executor succeeds on each migration of a list in turn. *)
Inductive applied : list migration -> state W -> state W -> Prop :=
| applied_nil s : applied [] s s
| applied_cons m ms s s1 s2 :
    execMigration db driver m fs s = (None, s1) ->
    applied ms s1 s2 ->
    applied (m :: ms) s s2.

(** What the storage behind the connection is assumed to do with a
    transaction: nothing of it is durable before a successful commit.
    [durable] is the part of the world that outlives the transaction. *)
Record Transactional {D : Type} (durable : W -> D) : Prop := {
  begin_keeps : forall w r w', BeginTx db w = (r, w') -> durable w' = durable w;
  exec_keeps : forall w0 tx w1 query w r w',
    BeginTx db w0 = (Ok tx, w1) ->
    sql.ExecContext tx query w = (r, w') -> durable w' = durable w;
  add_keeps : forall w0 tx w1 v w r w',
    BeginTx db w0 = (Ok tx, w1) ->
    Driver.AddVersion driver tx v w = (r, w') -> durable w' = durable w;
  rollback_keeps : forall w0 tx w1 w r w',
    BeginTx db w0 = (Ok tx, w1) ->
    sql.Rollback tx w = (r, w') -> durable w' = durable w;
  failed_commit_keeps : forall w0 tx w1 w err w',
    BeginTx db w0 = (Ok tx, w1) ->
    sql.Commit tx w = (Some err, w') -> durable w' = durable w
}.

End Runs.

(** The migrations of a list that are above the stored version. *)
Definition pendingMigrations (currentVersion : Z) (migrations : list migration) : list migration :=
  filter (fun m => currentVersion < m.(version)) migrations.

(** Files, a driver and a database to run the definitions on. *)
Module Sample.

Definition dir : string := "migrations".

Definition users : FS :=
  Fixture.memFS dir
    [("1_initial.sql", "CREATE TABLE users (id INT)");
     ("2_add_email.sql", "ALTER TABLE users ADD COLUMN email TEXT")].

(** The second file does not execute. *)
Definition broken : FS :=
  Fixture.memFS dir
    [("1_initial.sql", "CREATE TABLE users (id INT)");
     ("2_add_email.sql", MemDB.rejected)].

Definition newDriver : NewDriver MemDB.store := MemDB.newDriver "sqlite".

Definition fresh : state MemDB.store := MemDB.start MemDB.empty.

Definition initial : migration :=
  {| name := "initial"; version := 1; driver := ""; filePath := "migrations/1_initial.sql" |}.

Definition add_email : migration :=
  {| name := "add email"; version := 2; driver := ""; filePath := "migrations/2_add_email.sql" |}.

Definition sqlite : Driver.t MemDB.store := newDriver MemDB.db defaultTableName.

End Sample.


(* ===================================================================== *)
(** * Further notions: what the resolver takes from an entry, settings,
      the calls of a committed migration *)
(* ===================================================================== *)

Global Instance DirEntry_eq_dec : EqDecision DirEntry.
Proof. solve_decision. Defined.

(** The migration the resolver takes from an entry: the entry is a file
    with the extension, its name parses, and the driver filter keeps
    it. *)
Definition candidate (dir activeDriver : string) (entry : DirEntry) : option migration :=
  if entry.(IsDir) then None
  else if negb (HasSuffix entry.(Name) migrationFileExt) then None
  else
    match parseMigrationFileName dir entry.(Name) with
    | Ok mig =>
        if negb (String.eqb mig.(driver) "") && negb (String.eqb mig.(driver) activeDriver)
        then None else Some mig
    | Err _ => None
    end.

Definition keptMigrations (dir activeDriver : string) (entries : list DirEntry)
    : list migration :=
  omap (candidate dir activeDriver) entries.

(** A file with the extension whose name does not parse. *)
Definition malformed (dir : string) (entry : DirEntry) : bool :=
  negb entry.(IsDir)
  && HasSuffix entry.(Name) migrationFileExt
  && negb (isOk (parseMigrationFileName dir entry.(Name))).

(** An entry that is neither: a directory, a file without the extension,
    or a migration tagged for another driver. *)
Definition passedOver (dir activeDriver : string) (entry : DirEntry) : bool :=
  negb (malformed dir entry)
  && match candidate dir activeDriver entry with Some _ => false | None => true end.

(** The options of the package, by name. *)
Inductive setting : Type :=
| SetDirectory (dir : string)
| SetTableName (name : string)
| SetLogger (l : slog_Logger).

Definition toOption (o : setting) : Option :=
  match o with
  | SetDirectory dir => WithDirectory dir
  | SetTableName name => WithTableName name
  | SetLogger l => WithLogger l
  end.

Definition setsDirectory (o : setting) : Prop :=
  match o with SetDirectory _ => True | _ => False end.

Definition setsTableName (o : setting) : Prop :=
  match o with SetTableName _ => True | _ => False end.

Definition setsLogger (o : setting) : Prop :=
  match o with SetLogger _ => True | _ => False end.

(** The calls of the executor for a migration that commits. *)
Definition committedCalls (fs : FS) (m : migration) : list call :=
  match fs.(ReadFile) m.(filePath) with
  | Ok data => [CallBeginTx; CallExecContext data; CallAddVersion m.(version); CallCommit]
  | Err _ => []
  end.

(** The versions of the [AddVersion] calls of a list of calls. *)
Definition versionsWritten (cs : list call) : list Z :=
  omap (fun c => match c with CallAddVersion v => Some v | _ => None end) cs.

(** A listing with a universal migration, one migration for each of two
    drivers, and a file that is no migration. *)
Module Mixed.

Definition names : list string :=
  ["1_initial.sql"; "2_some_changes.postgres.sql"; "2_some_changes.sqlite.sql"; "README.md"].

Definition files : FS := Fixture.listing "migrations" names.

Definition entries : list DirEntry := map Fixture.file names.

Definition initial : migration :=
  {| name := "initial"; version := 1; driver := ""; filePath := "migrations/1_initial.sql" |}.

Definition some_changes : migration :=
  {| name := "some changes"; version := 2; driver := "postgres";
     filePath := "migrations/2_some_changes.postgres.sql" |}.

(** The same with a file whose version is no number. *)
Definition withMalformed : FS := Fixture.listing "migrations" (names ++ ["x_y.mysql.sql"]).

End Mixed.

(* ===================================================================== *)
(** * The tests of the repository and the examples of its documentation *)
(* ===================================================================== *)

(** The cases of [TestParseMigrationFileName]. *)
Example parse_test_case_0 :
  parseMigrationFileName "migrations" "1_create_table.sql"
  = Ok {| name := "create table"; version := 1; driver := "";
          filePath := "migrations/1_create_table.sql" |}.
Proof. vm_compute. reflexivity. Qed.

Example parse_test_case_2 :
  parseMigrationFileName "migrations" "3_add_column_to_table_and_index.postgres.sql"
  = Ok {| name := "add column to table and index"; version := 3; driver := "postgres";
          filePath := "migrations/3_add_column_to_table_and_index.postgres.sql" |}.
Proof. vm_compute. reflexivity. Qed.

Example parse_test_case_3 :
  parseMigrationFileName "migrations" "4_add_column_to_table_and_index_2.sqlite.sql"
  = Ok {| name := "add column to table and index 2"; version := 4; driver := "sqlite";
          filePath := "migrations/4_add_column_to_table_and_index_2.sqlite.sql" |}.
Proof. vm_compute. reflexivity. Qed.

Example parse_test_case_4 :
  parseMigrationFileName "migrations" "5_add_column_to_table_and_index_3.sqll"
  = Err (fmt_Errorf "invalid migration file extension: %s"
           [ArgString "5_add_column_to_table_and_index_3.sqll"]).
Proof. vm_compute. reflexivity. Qed.


(** [TestLoadMigrations]. *)
Example loadMigrations_testdata :
  loadMigrations
    (Fixture.listing "testdata" ["1_initial.sql"; "2_some_changes.postgres.sql"])
    "testdata" "postgres"
  = Ok [ {| name := "initial"; version := 1; driver := "";
            filePath := "testdata/1_initial.sql" |};
         {| name := "some changes"; version := 2; driver := "postgres";
            filePath := "testdata/2_some_changes.postgres.sql" |} ].
Proof. vm_compute. reflexivity. Qed.


(** A stored version of 2 and the versions 1, 2 and 3: version 3 alone
    is executed, and is the stored version afterwards. *)
Example migrate_resumes_after_stored_version :
  Migrate (Some MemDB.db) (Some Sample.newDriver)
    (Fixture.memFS "migrations"
       [("1_initial.sql", "CREATE TABLE users (id INT)");
        ("2_add_email.sql", "ALTER TABLE users ADD COLUMN email TEXT");
        ("3_add_index.sql", "CREATE INDEX users_email ON users (email)")])
    []
    (MemDB.start {| MemDB.tables := ["gomigrate"];
                    MemDB.statements := ["CREATE TABLE users (id INT)";
                                         "ALTER TABLE users ADD COLUMN email TEXT"];
                    MemDB.rows := [1; 2]; MemDB.pending := None |})
  = (None,
     {| world := {| MemDB.tables := ["gomigrate"];
                    MemDB.statements := ["CREATE TABLE users (id INT)";
                                         "ALTER TABLE users ADD COLUMN email TEXT";
                                         "CREATE INDEX users_email ON users (email)"];
                    MemDB.rows := [1; 2; 3]; MemDB.pending := None |};
        calls := [CallCreateVersionTable; CallGetVersion; CallBeginTx;
                  CallExecContext "CREATE INDEX users_email ON users (email)";
                  CallAddVersion 3; CallCommit] |}).
Proof. vm_compute. reflexivity. Qed.

Example migrate_without_database :
  Migrate (W := MemDB.store) None (Some Sample.newDriver) Sample.users [] Sample.fresh
  = (Some ErrNoDatabase, Sample.fresh).
Proof. reflexivity. Qed.

Example migrate_without_migrations :
  Migrate (Some MemDB.db) (Some Sample.newDriver)
    (Fixture.listing "migrations" ["5_bad_name.sqll"]) [] Sample.fresh
  = (Some (fmt_Errorf "no migrations found in %s" [ArgString "migrations"]), Sample.fresh).
Proof. vm_compute. reflexivity. Qed.

(* ===================================================================== *)
(** * Strings: slicing, suffixes, the first occurrence of a byte *)
(* ===================================================================== *)

Section StringFacts.

Lemma app_String c s t : String c s +:+ t = String c (s +:+ t).
Proof. reflexivity. Qed.

Lemma app_empty_l t : "" +:+ t = t.
Proof. reflexivity. Qed.

Lemma app_empty_r s : s +:+ "" = s.
Proof. induction s as [|c s IH]; [done|]. by rewrite app_String, IH. Qed.

Lemma app_assoc_str a b c : (a +:+ b) +:+ c = a +:+ b +:+ c.
Proof. induction a as [|x a IH]; [done|]. by rewrite !app_String, IH. Qed.

Lemma length_app_str a b :
  String.length (a +:+ b) = (String.length a + String.length b)%nat.
Proof. induction a as [|x a IH]; [done|]. rewrite app_String. simpl. by rewrite IH. Qed.

Lemma bytes_app a b : bytes (a +:+ b) = bytes a ++ bytes b.
Proof. induction a as [|x a IH]; [done|]. rewrite app_String. simpl. by rewrite IH. Qed.

Lemma str_take_app a b : str_take (String.length a) (a +:+ b) = a.
Proof. induction a as [|x a IH]; [by destruct b|]. rewrite app_String. simpl. by rewrite IH. Qed.

Lemma str_drop_app a b : str_drop (String.length a) (a +:+ b) = b.
Proof. induction a as [|x a IH]; [by destruct b|]. by rewrite app_String. Qed.

Lemma str_take_drop n s : str_take n s +:+ str_drop n s = s.
Proof.
  revert s. induction n as [|n IH]; intros [|c s]; try done.
  simpl. by rewrite app_String, IH.
Qed.

Lemma length_str_drop n s : String.length (str_drop n s) = (String.length s - n)%nat.
Proof. revert s. induction n as [|n IH]; intros [|c s]; simpl; auto with lia. Qed.

Lemma eqb_eq_str s t : String.eqb s t = true <-> s = t.
Proof. apply String.eqb_eq. Qed.

Lemma HasSuffix_app a suffix : HasSuffix (a +:+ suffix) suffix = true.
Proof.
  unfold HasSuffix. rewrite length_app_str.
  replace (String.length a + String.length suffix - String.length suffix)%nat
    with (String.length a) by lia.
  rewrite str_drop_app, String.eqb_refl, andb_true_r.
  apply Nat.leb_le. lia.
Qed.

Lemma HasSuffix_inv s suffix :
  HasSuffix s suffix = true -> exists a, s = a +:+ suffix.
Proof.
  unfold HasSuffix. intros [_ H]%andb_prop. apply eqb_eq_str in H.
  set (n := (String.length s - String.length suffix)%nat) in H.
  exists (str_take n s). rewrite <- (str_take_drop n s) at 1. by rewrite H.
Qed.

Lemma HasSuffix_iff s suffix :
  HasSuffix s suffix = true <-> exists a, s = a +:+ suffix.
Proof. split; [apply HasSuffix_inv|]. intros [a ->]. apply HasSuffix_app. Qed.

Lemma CutSuffix_app a suffix : CutSuffix (a +:+ suffix) suffix = (a, true).
Proof.
  unfold CutSuffix. rewrite HasSuffix_app, length_app_str.
  replace (String.length a + String.length suffix - String.length suffix)%nat
    with (String.length a) by lia.
  by rewrite str_take_app.
Qed.

Lemma CutSuffix_absent s suffix : HasSuffix s suffix = false -> CutSuffix s suffix = (s, false).
Proof. unfold CutSuffix. by intros ->. Qed.

(** The first occurrence of a byte. *)
Lemma first_occurrence c s :
  c ∈ bytes s -> exists a b, s = a +:+ String c b /\ c ∉ bytes a.
Proof.
  induction s as [|x s IH]; simpl; [by intros ?%elem_of_nil|].
  destruct (decide (x = c)) as [->|Hne].
  - intros _. exists "", s. split; [done|]. simpl. apply not_elem_of_nil.
  - intros [?|Hin]%elem_of_cons; [congruence|].
    destruct (IH Hin) as (a & b & -> & Ha).
    exists (String x a), b. split; [done|]. simpl.
    intros [?|?]%elem_of_cons; congruence.
Qed.

Lemma HasPrefix_char c x s : HasPrefix (String x s) (String c "") = Ascii.eqb x c.
Proof. simpl. by rewrite andb_true_r. Qed.

Lemma Index_char_absent c s : c ∉ bytes s -> Index s (String c "") = None.
Proof.
  induction s as [|x s IH]; [done|]. simpl bytes. intros Hnot.
  apply not_elem_of_cons in Hnot as [Hne Hnot].
  cbn [Index]. rewrite HasPrefix_char.
  destruct (Ascii.eqb_spec x c) as [->|_]; [done|].
  by rewrite (IH Hnot).
Qed.

Lemma Index_char_first c a b :
  c ∉ bytes a -> Index (a +:+ String c b) (String c "") = Some (String.length a).
Proof.
  induction a as [|x a IH]; intros Hnot.
  - rewrite app_empty_l. cbn [Index]. by rewrite HasPrefix_char, Ascii.eqb_refl.
  - simpl bytes in Hnot. apply not_elem_of_cons in Hnot as [Hne Hnot].
    rewrite app_String. cbn [Index]. rewrite HasPrefix_char.
    destruct (Ascii.eqb_spec x c) as [->|_]; [done|].
    by rewrite (IH Hnot).
Qed.

Lemma SplitN_2_absent c s : c ∉ bytes s -> SplitN s (String c "") 2 = [s].
Proof. intros H. cbn [SplitN]. by rewrite Index_char_absent. Qed.

Lemma SplitN_2_first c a b :
  c ∉ bytes a -> SplitN (a +:+ String c b) (String c "") 2 = [a; b].
Proof.
  intros H. cbn [SplitN]. rewrite Index_char_first by done.
  rewrite str_take_app. simpl String.length.
  replace (String.length a + 1)%nat with (String.length (a +:+ String c "")).
  2:{ rewrite length_app_str. simpl. lia. }
  replace (a +:+ String c b) with ((a +:+ String c "") +:+ b).
  2:{ by rewrite app_assoc_str. }
  by rewrite str_drop_app.
Qed.

End StringFacts.

(* ===================================================================== *)
(** * [strconv.Atoi] accepts the integer literals that fit *)
(* ===================================================================== *)

Section AtoiFacts.
Import strconv.

Lemma decimalFrom_String n c s :
  decimalFrom n (String c s) = decimalFrom (n * 10 + digitVal c) s.
Proof. reflexivity. Qed.

Lemma digitVal_range c : isDigit c = true -> 0 <= digitVal c <= 9.
Proof.
  unfold isDigit, digitVal. intros [H1 H2]%andb_prop.
  apply Nat.leb_le in H1, H2. lia.
Qed.

Lemma allDigits_String c s : allDigits (String c s) <-> isDigit c = true /\ allDigits s.
Proof.
  unfold allDigits. simpl. split; [by inversion 1|]. intros []. by constructor.
Qed.

Lemma decimalFrom_ge s : forall n, allDigits s -> 0 <= n -> n <= decimalFrom n s.
Proof.
  induction s as [|c s IH]; intros n Hs Hn; [done|].
  apply allDigits_String in Hs as [Hc Hs]. rewrite decimalFrom_String.
  pose proof (digitVal_range c Hc).
  etransitivity; [|apply IH]; [lia|done|lia].
Qed.

Lemma parseUintLoop_spec s : forall n, 0 <= n ->
  match parseUintLoop s n with
  | ScanOk r => allDigits s /\ r = decimalFrom n s /\ r <= 2 ^ 64 - 1
  | ScanSyntax => ~ allDigits s
  | ScanRange => allDigits s -> 2 ^ 64 - 1 < decimalFrom n s
  end \/ 2 ^ 64 - 1 < n.
Proof.
  induction s as [|c s IH]; intros n Hn.
  - simpl. destruct (Z_lt_le_dec (2 ^ 64 - 1) n); [by right|left].
    split; [constructor|]. split; [done|lia].
  - destruct (Z_lt_le_dec (2 ^ 64 - 1) n) as [|Hle]; [by right|left].
    cbn [parseUintLoop]. destruct (isDigit c) eqn:Hc.
    2:{ intros [? _]%allDigits_String. congruence. }
    pose proof (digitVal_range c Hc) as Hd.
    destruct (Z.leb_spec ((2 ^ 64 - 1) / 10 + 1) n) as [Hcut|Hcut].
    { intros [_ Hs]%allDigits_String. rewrite decimalFrom_String.
      eapply Z.lt_le_trans; [|apply decimalFrom_ge; [done|lia]].
      change ((2 ^ 64 - 1) / 10 + 1) with 1844674407370955162 in Hcut.
      change (2 ^ 64 - 1) with 18446744073709551615. lia. }
    destruct (Z.ltb_spec (2 ^ 64 - 1) (n * 10 + digitVal c)) as [Hov|Hov].
    { intros [_ Hs]%allDigits_String. rewrite decimalFrom_String.
      eapply Z.lt_le_trans; [exact Hov|]. apply decimalFrom_ge; [done|lia]. }
    destruct (IH (n * 10 + digitVal c)) as [IH'|?]; [lia| |lia].
    rewrite decimalFrom_String.
    destruct (parseUintLoop s (n * 10 + digitVal c)).
    + destruct IH' as (? & ? & ?). by rewrite allDigits_String.
    + by intros [_ ?]%allDigits_String.
    + intros [_ ?]%allDigits_String. by apply IH'.
Qed.

Lemma parseUintLoop_digits s :
  allDigits s -> decimalValue s <= 2 ^ 64 - 1 -> parseUintLoop s 0 = ScanOk (decimalValue s).
Proof.
  intros Hs Hv. destruct (parseUintLoop_spec s 0) as [H|H]; [done| |done].
  fold (decimalValue s) in H. destruct (parseUintLoop s 0).
  - destruct H as (_ & -> & _). done.
  - done.
  - specialize (H Hs). lia.
Qed.

Lemma parseUintLoop_Ok s r :
  parseUintLoop s 0 = ScanOk r -> allDigits s /\ r = decimalValue s.
Proof.
  intros E. destruct (parseUintLoop_spec s 0) as [H|H]; [done| |done].
  rewrite E in H. destruct H as (? & ? & ?). done.
Qed.

Lemma isDigit_not_sign c : isDigit c = true -> Ascii.eqb c "+" = false /\ Ascii.eqb c "-" = false.
Proof.
  intros H. split; apply Ascii.eqb_neq; intros ->; vm_compute in H; discriminate.
Qed.

Lemma maxInt_val : maxInt = 9223372036854775807.
Proof. reflexivity. Qed.

Lemma minInt_val : minInt = -9223372036854775808.
Proof. reflexivity. Qed.

Lemma pow_int_val : 2 ^ (intSize - 1) = 9223372036854775808.
Proof. reflexivity. Qed.

Lemma Atoi_literal s n : IntLiteral s n -> Atoi s = Ok n.
Proof.
  destruct 1 as [d Hne Hd Hv|d Hne Hd Hv|d Hne Hd Hv]; rewrite ?maxInt_val, ?minInt_val in Hv.
  - destruct d as [|c d]; [done|]. unfold Atoi.
    pose proof Hd as [[-> ->]%isDigit_not_sign _]%allDigits_String.
    cbn [orb]. rewrite parseUintLoop_digits by (done || lia).
    rewrite pow_int_val. cbn [negb andb].
    destruct (Z.leb_spec 9223372036854775808 (decimalValue (String c d))); [lia|done].
  - unfold Atoi. rewrite Ascii.eqb_refl. cbn [orb].
    destruct d as [|c d]; [done|].
    rewrite parseUintLoop_digits by (done || lia).
    rewrite pow_int_val. change (Ascii.eqb "+" "-") with false. cbn [negb andb].
    destruct (Z.leb_spec 9223372036854775808 (decimalValue (String c d))); [lia|done].
  - unfold Atoi. rewrite Ascii.eqb_refl. rewrite orb_true_r.
    destruct d as [|c d]; [done|].
    rewrite parseUintLoop_digits by (done || lia).
    rewrite pow_int_val. cbn [negb andb].
    destruct (Z.ltb_spec 9223372036854775808 (decimalValue (String c d))); [lia|done].
Qed.

Lemma Atoi_Ok_inv s n : Atoi s = Ok n -> IntLiteral s n.
Proof.
  unfold Atoi. destruct s as [|c s]; [done|].
  rewrite pow_int_val.
  destruct (Ascii.eqb_spec c "+") as [->|Hplus]; cbn [orb].
  - change (Ascii.eqb "+" "-") with false. cbn [negb andb].
    destruct s as [|c' s]; [done|].
    destruct (parseUintLoop (String c' s) 0) as [un| |] eqn:E; try done.
    apply parseUintLoop_Ok in E as [Hd ->].
    destruct (Z.leb_spec 9223372036854775808 (decimalValue (String c' s))); [done|].
    intros [= <-]. apply lit_plus; [done|done|rewrite maxInt_val; lia].
  - destruct (Ascii.eqb_spec c "-") as [->|Hminus]; cbn [negb andb].
    + destruct s as [|c' s]; [done|].
      destruct (parseUintLoop (String c' s) 0) as [un| |] eqn:E; try done.
      apply parseUintLoop_Ok in E as [Hd ->].
      destruct (Z.ltb_spec 9223372036854775808 (decimalValue (String c' s))); [done|].
      intros [= <-]. apply lit_minus; [done|done|rewrite minInt_val; lia].
    + destruct (parseUintLoop (String c s) 0) as [un| |] eqn:E; try done.
      apply parseUintLoop_Ok in E as [Hd ->].
      destruct (Z.leb_spec 9223372036854775808 (decimalValue (String c s))); [done|].
      intros [= <-]. apply lit_unsigned; [done|done|rewrite maxInt_val; lia].
Qed.

Lemma Atoi_iff s n : Atoi s = Ok n <-> IntLiteral s n.
Proof. split; [apply Atoi_Ok_inv|apply Atoi_literal]. Qed.

(** The error of [Atoi] is a [NumError] that names the function and the
    operand. *)
Lemma Atoi_Err_inv s e : Atoi s = Err e ->
  e = NumError "Atoi" s ErrSyntax \/ e = NumError "Atoi" s ErrRange.
Proof.
  unfold Atoi. destruct s as [|c s]; [intros [= <-]; by left|].
  destruct (if _ : bool then s else String c s); [intros [= <-]; by left|].
  destruct (parseUintLoop _ _); [|intros [= <-]; by left|intros [= <-]; by right].
  repeat (destruct (_ && _); [intros [= <-]; by right|]). done.
Qed.

End AtoiFacts.

(* ===================================================================== *)
(** * The file name parser *)
(* ===================================================================== *)

Section ParserFacts.

Lemma HasSuffix_false s suffix :
  (forall stem, s <> stem +:+ suffix) -> HasSuffix s suffix = false.
Proof.
  intros H. destruct (HasSuffix s suffix) eqn:E; [|done].
  apply HasSuffix_inv in E as [a ->]. by destruct (H a).
Qed.

Lemma parse_bad_extension dir fileName :
  HasSuffix fileName migrationFileExt = false ->
  parseMigrationFileName dir fileName
  = Err (fmt_Errorf "invalid migration file extension: %s" [ArgString fileName]).
Proof. intros H. unfold parseMigrationFileName. by rewrite CutSuffix_absent. Qed.

(** With the extension cut and the stem split at its first dot, what is
    left is the split at the first underscore and [Atoi]. *)
Lemma parse_stem dir base tag :
  "."%char ∉ bytes base ->
  parseMigrationFileName dir (withTag base tag +:+ migrationFileExt)
  = let fileName := withTag base tag +:+ migrationFileExt in
    let parts := SplitN base migrationSeparator 2 in
    if negb (length parts =? 2)%nat then
      Err (fmt_Errorf "invalid migration file name: %s" [ArgString fileName])
    else
      match strconv.Atoi (parts !!! 0%nat) with
      | Err err => Err (fmt_Errorf "failed to parse migration version: %w" [ArgError err])
      | Ok n => Ok {| name := ReplaceAll (parts !!! 1%nat) "_" " ";
                      version := n;
                      driver := default "" tag;
                      filePath := path.Join [dir; fileName] |}
      end.
Proof.
  intros Hdot. unfold parseMigrationFileName. rewrite CutSuffix_app. cbn [negb].
  destruct tag as [t|]; cbn [withTag default].
  - unfold migrationDriverSeparator.
    change (base +:+ "." +:+ t) with (base +:+ String "." t).
    rewrite SplitN_2_first by done. reflexivity.
  - unfold migrationDriverSeparator. rewrite SplitN_2_absent by done. reflexivity.
Qed.

Lemma parse_no_separator dir base tag :
  "."%char ∉ bytes base -> "_"%char ∉ bytes base ->
  parseMigrationFileName dir (withTag base tag +:+ migrationFileExt)
  = Err (fmt_Errorf "invalid migration file name: %s"
           [ArgString (withTag base tag +:+ migrationFileExt)]).
Proof.
  intros Hdot Hsep. rewrite parse_stem by done. cbv zeta.
  unfold migrationSeparator. by rewrite SplitN_2_absent.
Qed.

Lemma parse_separator dir v rest tag :
  "."%char ∉ bytes (v +:+ "_" +:+ rest) -> "_"%char ∉ bytes v ->
  parseMigrationFileName dir (withTag (v +:+ "_" +:+ rest) tag +:+ migrationFileExt)
  = match strconv.Atoi v with
    | Err err => Err (fmt_Errorf "failed to parse migration version: %w" [ArgError err])
    | Ok n => Ok {| name := ReplaceAll rest "_" " ";
                    version := n;
                    driver := default "" tag;
                    filePath := path.Join [dir; withTag (v +:+ "_" +:+ rest) tag +:+ migrationFileExt] |}
    end.
Proof.
  intros Hdot Hsep. rewrite parse_stem by done. cbv zeta.
  unfold migrationSeparator. change (v +:+ "_" +:+ rest) with (v +:+ String "_" rest).
  by rewrite SplitN_2_first.
Qed.

(** A stem is cut at its first dot in one way only. *)
Lemma stem_cases stem :
  exists base tag, stem = withTag base tag /\ "."%char ∉ bytes base.
Proof.
  destruct (decide ("."%char ∈ bytes stem)) as [Hin|Hnot].
  - apply first_occurrence in Hin as (a & b & -> & Ha). by exists a, (Some b).
  - by exists stem, None.
Qed.

End ParserFacts.

(* ===================================================================== *)
(** * The resolver's loops *)
(* ===================================================================== *)

Section ResolverFacts.
Context (dir activeDriver : string).

Lemma loadEntries_app pre post migrations :
  loadEntries dir activeDriver (pre ++ post) migrations
  = match loadEntries dir activeDriver pre migrations with
    | Ok migrations' => loadEntries dir activeDriver post migrations'
    | Err err => Err err
    end.
Proof.
  revert migrations. induction pre as [|e pre IH]; intros migrations; [done|].
  simpl. destruct (loadEntry dir activeDriver migrations e); [apply IH|done].
Qed.

Lemma loadEntries_snoc pre entry migrations migrations' :
  loadEntries dir activeDriver pre migrations = Ok migrations' ->
  loadEntries dir activeDriver (pre ++ [entry]) migrations
  = loadEntry dir activeDriver migrations' entry.
Proof.
  intros H. rewrite loadEntries_app, H. simpl.
  by destruct (loadEntry dir activeDriver migrations' entry).
Qed.

Lemma loadEntry_other_extension migrations entry :
  HasSuffix entry.(Name) migrationFileExt = false ->
  loadEntry dir activeDriver migrations entry = Ok migrations.
Proof. intros H. unfold loadEntry. rewrite H. by destruct (IsDir entry). Qed.

(** The inner loop, started at index [i] with [rest] the slice from [i]. *)
Lemma findVersion_none mig migrations i rest :
  Forall (fun m => m.(version) <> mig.(version)) rest ->
  findVersion activeDriver mig migrations i rest = None.
Proof.
  revert i. induction rest as [|m rest IH]; intros i Hall; [done|].
  inversion_clear Hall as [|?? Hm Hrest]. simpl.
  destruct (Z.eqb_spec (version m) (version mig)); [done|]. by apply IH.
Qed.

Lemma findVersion_first mig migrations i l1 m l2 :
  Forall (fun m' => m'.(version) <> mig.(version)) l1 ->
  m.(version) = mig.(version) ->
  findVersion activeDriver mig migrations i (l1 ++ m :: l2)
  = Some (if String.eqb m.(driver) mig.(driver) then Err (duplicateError mig m)
          else Ok (if String.eqb mig.(driver) activeDriver
                   then <[(i + length l1)%nat := mig]> migrations
                   else migrations)).
Proof.
  revert i. induction l1 as [|m' l1 IH]; intros i Hall Hm.
  - simpl. rewrite Hm, Z.eqb_refl, Nat.add_0_r.
    by repeat destruct (String.eqb _ _).
  - inversion_clear Hall as [|?? Hm' Hl1]. simpl.
    destruct (Z.eqb_spec (version m') (version mig)); [done|].
    rewrite IH by done. by replace (S i + length l1)%nat with (i + S (length l1))%nat by lia.
Qed.

Lemma holdsSlot_split migrations i m v :
  holdsSlot migrations i m v ->
  migrations = take i migrations ++ m :: drop (S i) migrations
  /\ length (take i migrations) = i
  /\ Forall (fun m' => m'.(version) <> v) (take i migrations).
Proof.
  intros (Hi & Hv & Hbefore).
  assert (i < length migrations)%nat by (by eapply lookup_lt_Some).
  split; [|split].
  - by rewrite <- (take_drop_middle migrations i m) at 1.
  - rewrite length_take. lia.
  - apply Forall_forall. intros m' Hin.
    apply list_elem_of_lookup in Hin as [j Hj].
    pose proof (lookup_lt_Some _ _ _ Hj) as Hlt. rewrite length_take in Hlt.
    rewrite lookup_take_lt in Hj by lia. apply (Hbefore j m'); [lia|done].
Qed.

Lemma findVersion_slot mig migrations i m :
  holdsSlot migrations i m mig.(version) ->
  findVersion activeDriver mig migrations 0 migrations
  = Some (if String.eqb m.(driver) mig.(driver) then Err (duplicateError mig m)
          else Ok (if String.eqb mig.(driver) activeDriver
                   then <[i := mig]> migrations
                   else migrations)).
Proof.
  intros Hslot. pose proof Hslot as (_ & Hv & _).
  apply holdsSlot_split in Hslot as (Hsplit & Hlen & Hbefore).
  rewrite Hsplit at 2. rewrite findVersion_first by done. by rewrite Hlen.
Qed.

(** Either no element has the version, or a first one holds its slot. *)
Lemma slot_cases (migrations : list migration) v :
  Forall (fun m => m.(version) <> v) migrations
  \/ exists i m, holdsSlot migrations i m v.
Proof.
  induction migrations as [|m ms IH]; [by left|].
  destruct (decide (version m = v)) as [Hv|Hv].
  - right. exists 0%nat, m. split; [done|]. split; [done|]. intros; lia.
  - destruct IH as [IH|(i & m' & Hi & Hv' & Hb)].
    + left. by constructor.
    + right. exists (S i), m'. split; [done|]. split; [done|].
      intros [|j] m'' Hj Hl; simpl in Hl; [by injection Hl as <-|].
      apply (Hb j); [lia|done].
Qed.

Lemma loadEntry_enumerates migrations entry mig :
  enumerates dir activeDriver entry mig ->
  loadEntry dir activeDriver migrations entry
  = match findVersion activeDriver mig migrations 0 migrations with
    | Some (Err err) => Err err
    | Some (Ok migrations') => Ok migrations'
    | None => Ok (migrations ++ [mig])
    end.
Proof.
  intros (Hfile & Hext & Hparse & Hkept). unfold loadEntry.
  rewrite Hfile, Hext, Hparse. cbn [negb].
  destruct Hkept as [->| ->]; [done|].
  by rewrite String.eqb_refl, andb_false_r.
Qed.

(** What one turn of the outer loop does, in full. *)
Lemma loadEntry_cases migrations entry :
  loadEntry dir activeDriver migrations entry = Ok migrations
  \/ (exists err, parseMigrationFileName dir entry.(Name) = Err err
        /\ loadEntry dir activeDriver migrations entry
           = Err (fmt_Errorf "failed to parse migration file name: %w" [ArgError err]))
  \/ exists mig, enumerates dir activeDriver entry mig.
Proof.
  unfold loadEntry, enumerates, keptFor.
  destruct (IsDir entry); [by left|].
  destruct (HasSuffix _ _); [|by left]. cbn [negb].
  destruct (parseMigrationFileName dir (Name entry)) as [mig|err]; [|right; left; eauto].
  destruct (String.eqb_spec (driver mig) ""); cbn [negb andb].
  { right; right. exists mig. eauto. }
  destruct (String.eqb_spec (driver mig) activeDriver); cbn [negb].
  { right; right. exists mig. eauto 6. }
  by left.
Qed.

Lemma map_version_insert (migrations : list migration) i m mig :
  migrations !! i = Some m -> m.(version) = mig.(version) ->
  map version (<[i := mig]> migrations) = map version migrations.
Proof.
  intros Hi Hv. change (map version) with (fmap (M:=list) version).
  rewrite list_fmap_insert, <- Hv. apply list_insert_id.
  by rewrite list_lookup_fmap, Hi.
Qed.

Lemma IntLiteral_is_int s n : IntLiteral s n -> is_int n.
Proof.
  unfold is_int. rewrite minInt_val, maxInt_val.
  destruct 1 as [d _ Hd Hv|d _ Hd Hv|d _ Hd Hv];
    rewrite ?minInt_val, ?maxInt_val in Hv;
    pose proof (decimalFrom_ge d 0 Hd ltac:(done)); fold (decimalValue d) in *; lia.
Qed.

Lemma parse_version_is_int fileName m :
  parseMigrationFileName dir fileName = Ok m -> is_int m.(version).
Proof.
  unfold parseMigrationFileName.
  destruct (CutSuffix fileName migrationFileExt) as [name0 []]; [|done]. cbn [negb].
  destruct (if (1 <? length _)%nat then _ else _) as [driver1 name1].
  destruct (negb _); [done|].
  destruct (strconv.Atoi _) as [n|] eqn:E; [|done].
  intros [= <-]. simpl. eapply IntLiteral_is_int, Atoi_Ok_inv, E.
Qed.

Lemma loadEntry_resolved migrations entry migrations' :
  resolved activeDriver migrations ->
  loadEntry dir activeDriver migrations entry = Ok migrations' ->
  resolved activeDriver migrations'.
Proof.
  intros (Hkept & Hint & Hnodup) Hload.
  destruct (loadEntry_cases migrations entry) as [E|[(err & _ & E)|(mig & Hmig)]].
  { rewrite E in Hload. by injection Hload as <-. }
  { by rewrite E in Hload. }
  rewrite (loadEntry_enumerates _ _ _ Hmig) in Hload.
  destruct Hmig as (_ & _ & Hparse%parse_version_is_int & Hk).
  destruct (slot_cases migrations (version mig)) as [Hnone|(i & m & Hslot)].
  - rewrite findVersion_none in Hload by done. injection Hload as <-.
    split; [|split].
    + apply Forall_app. split; [done|]. by constructor.
    + apply Forall_app. split; [done|]. by constructor.
    + rewrite map_app. simpl. apply NoDup_app. split; [done|]. split.
      * intros v Hv [->|[]%elem_of_nil]%elem_of_cons.
        apply list_elem_of_fmap in Hv as (m & Hmv & Hm).
        rewrite Forall_forall in Hnone. by apply (Hnone m).
      * apply NoDup_singleton.
  - rewrite (findVersion_slot _ _ _ _ Hslot) in Hload.
    destruct (String.eqb (driver m) (driver mig)); [done|].
    destruct (String.eqb (driver mig) activeDriver); injection Hload as <-; [|done].
    destruct Hslot as (Hi & Hv & _). split; [|split].
    + by apply Forall_insert.
    + by apply Forall_insert.
    + by rewrite (map_version_insert _ _ m).
Qed.

Lemma loadEntries_resolved entries : forall migrations migrations',
  resolved activeDriver migrations ->
  loadEntries dir activeDriver entries migrations = Ok migrations' ->
  resolved activeDriver migrations'.
Proof.
  induction entries as [|e entries IH]; intros ms ms' Hres Hload.
  - by injection Hload as <-.
  - simpl in Hload. destruct (loadEntry dir activeDriver ms e) as [ms1|] eqn:E; [|done].
    eapply IH; [|done]. by eapply loadEntry_resolved.
Qed.

Lemma resolved_nil : resolved activeDriver [].
Proof. split; [constructor|]. split; [constructor|]. simpl. apply NoDup_nil_2. Qed.

End ResolverFacts.

(* ===================================================================== *)
(** * The sort by version *)
(* ===================================================================== *)

Section SortFacts.

Lemma wrap_fits z : minInt <= z <= maxInt -> wrap z = z.
Proof.
  rewrite minInt_val, maxInt_val. intros Hz. unfold wrap. rewrite pow_int_val.
  change (2 ^ intSize) with 18446744073709551616.
  rewrite Z.mod_small by lia. lia.
Qed.

Lemma compareVersions_fits a b :
  minInt <= a.(version) - b.(version) <= maxInt ->
  compareVersions a b = a.(version) - b.(version).
Proof. apply wrap_fits. Qed.

Lemma sink_perm {E} (cmp : E -> E -> Z) x sorted :
  slices.sink cmp x sorted ≡ₚ x :: sorted.
Proof.
  induction sorted as [|y below IH]; [done|]. simpl.
  destruct (cmp x y <? 0); [|done]. rewrite IH. apply Permutation_swap.
Qed.

Lemma fold_sink_perm {E} (cmp : E -> E -> Z) data : forall sorted,
  fold_left (fun sorted x => slices.sink cmp x sorted) data sorted ≡ₚ sorted ++ data.
Proof.
  induction data as [|x data IH]; intros sorted; simpl.
  - by rewrite app_nil_r.
  - rewrite IH, sink_perm. simpl. apply Permutation_middle.
Qed.

Lemma SortFunc_perm {E} (cmp : E -> E -> Z) data : slices.SortFunc cmp data ≡ₚ data.
Proof.
  unfold slices.SortFunc, slices.insertionSortCmpFunc.
  rewrite <- Permutation_rev. apply (fold_sink_perm cmp data []).
Qed.

Lemma sink_sorted x sorted :
  (forall y, y ∈ sorted -> minInt <= x.(version) - y.(version) <= maxInt) ->
  StronglySorted (flip versionLe) sorted ->
  StronglySorted (flip versionLe) (slices.sink compareVersions x sorted).
Proof.
  induction sorted as [|y below IH]; intros Hfit Hsorted; simpl.
  - repeat constructor.
  - apply StronglySorted_cons in Hsorted as [Hy Hbelow].
    rewrite compareVersions_fits by (apply Hfit; left).
    destruct (Z.ltb_spec (version x - version y) 0) as [Hlt|Hge].
    + apply StronglySorted_cons. split.
      * rewrite sink_perm. constructor; [|done]. unfold flip, versionLe. lia.
      * apply IH; [|done]. intros y' Hy'. apply Hfit. by right.
    + apply StronglySorted_cons. split; [|by apply StronglySorted_cons].
      constructor; [unfold flip, versionLe; lia|].
      eapply Forall_impl; [exact Hy|]. unfold flip, versionLe. intros; lia.
Qed.

Lemma fold_sink_sorted data : forall sorted,
  differencesFit (sorted ++ data) ->
  StronglySorted (flip versionLe) sorted ->
  StronglySorted (flip versionLe)
    (fold_left (fun sorted x => slices.sink compareVersions x sorted) data sorted).
Proof.
  induction data as [|x data IH]; intros sorted Hfit Hsorted; [done|]. simpl.
  assert (slices.sink compareVersions x sorted ++ data ≡ₚ sorted ++ x :: data) as Hp.
  { rewrite sink_perm. simpl. apply Permutation_middle. }
  apply IH.
  - intros a b Ha Hb. rewrite Hp in Ha, Hb. by apply Hfit.
  - apply sink_sorted; [|done]. intros y Hy.
    apply Hfit; rewrite elem_of_app, ?elem_of_cons; auto.
Qed.

Lemma StronglySorted_rev {A} (R : relation A) l :
  StronglySorted (flip R) l -> StronglySorted R (rev l).
Proof.
  induction 1 as [|x l Hl IH Hx]; simpl; [constructor|].
  apply StronglySorted_app_2; [|done|repeat constructor].
  intros x1 x2 Hx1%list_elem_of_In%in_rev%list_elem_of_In ->%list_elem_of_singleton.
  rewrite Forall_forall in Hx. by apply Hx.
Qed.

Lemma SortFunc_sorted data :
  differencesFit data ->
  StronglySorted versionLe (slices.SortFunc compareVersions data).
Proof.
  intros Hfit. apply StronglySorted_rev, fold_sink_sorted; [done|constructor].
Qed.

(** Ascending, in terms of neighbours and of all pairs. *)
Lemma ascending_cons a l :
  ascending (a :: l) <-> (match l with b :: _ => versionLt a b | [] => True end) /\ ascending l.
Proof.
  unfold ascending. split.
  - intros H. split.
    + destruct l as [|b l]; [done|]. by apply (H 0%nat).
    + intros i x y Hx Hy. by apply (H (S i)).
  - intros [Hhd Htl] [|i] x y Hx Hy; simpl in *.
    + destruct l as [|b l]; [done|]. simplify_eq/=. apply Hhd.
    + by apply (Htl i).
Qed.

Lemma ascending_StronglySorted l : ascending l <-> StronglySorted versionLt l.
Proof.
  split.
  - intros H. apply Sorted_StronglySorted.
    { intros x y z. unfold versionLt. lia. }
    induction l as [|a l IH]; [constructor|].
    apply ascending_cons in H as [Hhd Htl]. constructor; [by apply IH|].
    destruct l; by constructor.
  - intros H%StronglySorted_Sorted. induction H as [|a l Hl IH Hhd].
    + intros i x y Hx. done.
    + apply ascending_cons. split; [|done]. by destruct Hhd.
Qed.

Lemma ascendingb_spec l : ascendingb l = true <-> ascending l.
Proof.
  induction l as [|a l IH]; [by split; [intros _ i x y Hx|]|].
  rewrite ascending_cons, <- IH. destruct l as [|b l]; [simpl; tauto|].
  cbn [ascendingb]. rewrite andb_true_iff. unfold versionLt.
  by rewrite Z.ltb_lt.
Qed.

Lemma sorted_strict l :
  StronglySorted versionLe l -> NoDup (map version l) -> StronglySorted versionLt l.
Proof.
  induction 1 as [|a l Hl IH Ha]; intros Hnd; [constructor|].
  simpl in Hnd. apply NoDup_cons in Hnd as [Hnotin Hnd].
  constructor; [by apply IH|].
  rewrite Forall_forall in Ha |- *. intros b Hb.
  specialize (Ha b Hb). unfold versionLe, versionLt in *.
  assert (version a <> version b); [|lia].
  intros Heq. apply Hnotin. rewrite Heq.
  change (map version l) with (version <$> l). by apply list_elem_of_fmap_2.
Qed.

Lemma SortFunc_ascending data :
  differencesFit data -> NoDup (map version data) ->
  ascending (slices.SortFunc compareVersions data).
Proof.
  intros Hfit Hnd. apply ascending_StronglySorted, sorted_strict.
  - by apply SortFunc_sorted.
  - change map with (@fmap list _). by rewrite SortFunc_perm.
Qed.

(** Any arrangement of the slice that ascends is the one [SortFunc]
    returns: with versions that differ and differences that fit, the
    outcome does not depend on the sorting algorithm. *)
Lemma SortFunc_unique data sorted :
  differencesFit data -> NoDup (map version data) ->
  sorted ≡ₚ data -> ascending sorted ->
  sorted = slices.SortFunc compareVersions data.
Proof.
  intros Hfit Hnd Hperm Hasc.
  apply (StronglySorted_unique_strong versionLt).
  - unfold versionLt. intros; lia.
  - by apply ascending_StronglySorted.
  - by apply ascending_StronglySorted, SortFunc_ascending.
  - by rewrite SortFunc_perm.
Qed.

End SortFacts.

(* ===================================================================== *)
(** * The resolver *)
(* ===================================================================== *)

Section LoadFacts.
Context (fs : FS) (dir activeDriver : string).

Lemma loadMigrations_listing entries :
  fs.(ReadDir) dir = Ok entries ->
  loadMigrations fs dir activeDriver
  = match loadEntries dir activeDriver entries [] with
    | Err err => Err err
    | Ok migrations => Ok (slices.SortFunc compareVersions migrations)
    end.
Proof. intros H. unfold loadMigrations. by rewrite H. Qed.

Lemma loadEntries_skip_all entries migrations :
  (forall entry, entry ∈ entries -> HasSuffix entry.(Name) migrationFileExt = false) ->
  loadEntries dir activeDriver entries migrations = Ok migrations.
Proof.
  induction entries as [|e entries IH]; intros Hall; [done|]. simpl.
  rewrite loadEntry_other_extension by (apply Hall; left).
  apply IH. intros entry Hin. apply Hall. by right.
Qed.

(** No two elements of a slice without repeated versions share one. *)
Lemma version_slot_unique (migrations : list migration) i j a b :
  NoDup (map version migrations) ->
  migrations !! i = Some a -> migrations !! j = Some b ->
  a.(version) = b.(version) -> i = j.
Proof.
  intros Hnd Hi Hj Hv. eapply NoDup_lookup; [exact Hnd| |].
  - change (map version migrations) with (version <$> migrations).
    by rewrite list_lookup_fmap, Hi.
  - change (map version migrations) with (version <$> migrations).
    rewrite list_lookup_fmap, Hj. simpl. by rewrite Hv.
Qed.

(** A migration enumerated while another one holds the slot of its
    version. *)
Lemma loadEntry_slot migrations entry i m mig :
  holdsSlot migrations i m mig.(version) ->
  enumerates dir activeDriver entry mig ->
  loadEntry dir activeDriver migrations entry
  = if String.eqb m.(driver) mig.(driver) then Err (duplicateError mig m)
    else Ok (if String.eqb mig.(driver) activeDriver
             then <[i := mig]> migrations else migrations).
Proof.
  intros Hslot Hmig. rewrite (loadEntry_enumerates _ _ _ _ _ Hmig).
  rewrite (findVersion_slot _ _ _ _ _ Hslot). by destruct (String.eqb _ _).
Qed.

(** A universal migration enumerated while a migration for the active
    driver holds the slot of its version leaves the slice as it is. *)
Lemma loadEntries_universal_dropped us migrations i m v :
  holdsSlot migrations i m v ->
  m.(driver) = activeDriver -> m.(driver) <> "" ->
  Forall (fun entry => exists u,
            enumerates dir activeDriver entry u /\ u.(version) = v /\ u.(driver) = "") us ->
  loadEntries dir activeDriver us migrations = Ok migrations.
Proof.
  intros Hslot Hm Hspecific. induction 1 as [|e us (u & Hu & Hv & Hd) _ IH]; [done|].
  simpl. rewrite <- Hv in Hslot. rewrite (loadEntry_slot _ _ _ _ _ Hslot Hu).
  rewrite Hd. destruct (String.eqb_spec (driver m) ""); [done|].
  destruct (String.eqb_spec "" activeDriver); [congruence|]. apply IH.
Qed.

(** With differences of versions that fit in an [int] the resolved list
    ascends; so it does when no version is negative. *)
Lemma loadMigrations_ascending migrations :
  loadMigrations fs dir activeDriver = Ok migrations ->
  differencesFit migrations -> ascending migrations.
Proof.
  unfold loadMigrations. destruct (ReadDir fs dir) as [entries|]; [|done].
  destruct (loadEntries dir activeDriver entries []) as [slice|] eqn:E; [|done].
  intros [= <-] Hfit.
  apply (loadEntries_resolved dir activeDriver) in E as (_ & _ & Hnd); [|apply resolved_nil].
  apply SortFunc_ascending; [|done].
  intros a b Ha Hb. apply Hfit; by rewrite SortFunc_perm.
Qed.

Lemma loadMigrations_is_int migrations :
  loadMigrations fs dir activeDriver = Ok migrations ->
  Forall (fun m => is_int m.(version)) migrations.
Proof.
  unfold loadMigrations. destruct (ReadDir fs dir) as [entries|]; [|done].
  destruct (loadEntries dir activeDriver entries []) as [slice|] eqn:E; [|done].
  intros [= <-].
  apply (loadEntries_resolved dir activeDriver) in E as (_ & Hint & _); [|apply resolved_nil].
  by rewrite SortFunc_perm.
Qed.

Lemma loadMigrations_ascending_nonnegative migrations :
  loadMigrations fs dir activeDriver = Ok migrations ->
  Forall (fun m => 0 <= m.(version)) migrations -> ascending migrations.
Proof.
  intros Hload Hnn. apply loadMigrations_ascending; [done|].
  pose proof (loadMigrations_is_int _ Hload) as Hint.
  rewrite Forall_forall in Hnn, Hint. intros a b Ha Hb.
  pose proof (Hnn a Ha). pose proof (Hnn b Hb).
  pose proof (Hint a Ha) as Hia. pose proof (Hint b Hb) as Hib.
  unfold is_int in *. rewrite minInt_val, maxInt_val in *. lia.
Qed.

End LoadFacts.

(* ===================================================================== *)
(** * The executor and the loop of the orchestrator *)
(* ===================================================================== *)

Section ExecFacts.
Context {W : Type} (db : Queryer W) (driver : Driver.t W) (fs : FS).

Ltac run_step :=
  unfold mbind, M_bind, mret, M_ret, perform; cbn [world calls].

Lemma execMigration_run m s :
  execRun db driver fs m s
    (execMigration db driver m fs s).1 (execMigration db driver m fs s).2.
Proof.
  unfold execMigration.
  destruct (ReadFile fs (filePath m)) as [data|err] eqn:Hread.
  2:{ by apply run_unreadable. }
  run_step. destruct (BeginTx db (world s)) as [[tx|err] w1] eqn:Hbegin.
  2:{ by eapply run_no_transaction. }
  run_step. destruct (sql.ExecContext tx data w1) as [[err|] w2] eqn:Hexec.
  { run_step. destruct (sql.Rollback tx w2) as [rb w3] eqn:Hrb.
    rewrite <- !app_assoc. by eapply run_exec_failed. }
  run_step.
  destruct (Driver.AddVersion driver tx (version m) w2) as [[err|] w3] eqn:Hadd.
  { run_step. destruct (sql.Rollback tx w3) as [rb w4] eqn:Hrb.
    rewrite <- !app_assoc. by eapply run_version_failed. }
  run_step. destruct (sql.Commit tx w3) as [r w4] eqn:Hcommit.
  rewrite <- !app_assoc. by eapply run_commit.
Qed.

(** Nothing is durable unless the commit of a transaction that took the
    migration and its version went through. *)
Lemma execRun_durable {D} (durable : W -> D) m s r s' :
  Transactional db driver durable ->
  execRun db driver fs m s r s' ->
  durable s'.(world) = durable s.(world)
  \/ r = None /\ exists front, s'.(calls) = s.(calls) ++ front ++ [CallCommit].
Proof.
  intros [Hbegin Hexec Hadd Hrollback Hcommit].
  destruct 1 as [err Hread
                |data err w1 Hread Hb
                |data tx w1 err w2 rb w3 Hread Hb He Hr
                |data tx w1 w2 err w3 rb w4 Hread Hb He Ha Hr
                |data tx w1 w2 w3 r w4 Hread Hb He Ha Hc]; cbn [world calls].
  - by left.
  - left. by eapply Hbegin.
  - left. rewrite (Hrollback _ _ _ _ _ _ Hb Hr), (Hexec _ _ _ _ _ _ _ Hb He).
    by eapply Hbegin.
  - left. rewrite (Hrollback _ _ _ _ _ _ Hb Hr), (Hadd _ _ _ _ _ _ _ Hb Ha),
      (Hexec _ _ _ _ _ _ _ Hb He). by eapply Hbegin.
  - destruct r as [err|].
    + left. rewrite (Hcommit _ _ _ _ _ _ Hb Hc), (Hadd _ _ _ _ _ _ _ Hb Ha),
        (Hexec _ _ _ _ _ _ _ Hb He). by eapply Hbegin.
    + right. split; [done|].
      by exists [CallBeginTx; CallExecContext data; CallAddVersion (version m)].
Qed.

Lemma pendingMigrations_cons currentVersion m ms :
  pendingMigrations currentVersion (m :: ms)
  = if m.(version) <=? currentVersion then pendingMigrations currentVersion ms
    else m :: pendingMigrations currentVersion ms.
Proof.
  unfold pendingMigrations. rewrite filter_cons.
  destruct (Z.leb_spec (version m) currentVersion); case_decide; (done || lia).
Qed.

(** The loop runs the executor on the pending migrations, in the order
    of the list, up to the first failure. *)
Lemma applyMigrations_runs currentVersion migrations : forall s,
  exists done s1,
    applied db driver fs done s s1
    /\ let r := (applyMigrations db driver fs currentVersion migrations s).1 in
       let s' := (applyMigrations db driver fs currentVersion migrations s).2 in
       (r = None /\ done = pendingMigrations currentVersion migrations /\ s' = s1)
       \/ exists m rest err,
            pendingMigrations currentVersion migrations = done ++ m :: rest
            /\ execMigration db driver m fs s1 = (Some err, s')
            /\ r = Some (MigrateError m.(name) m.(filePath) m.(version) err).
Proof.
  induction migrations as [|m ms IH]; intros s.
  - exists [], s. split; [constructor|]. left. by cbn.
  - cbn [applyMigrations]. rewrite pendingMigrations_cons.
    destruct (version m <=? currentVersion); [apply IH|].
    unfold mbind, M_bind.
    destruct (execMigration db driver m fs s) as [[err|] s1] eqn:Hexec.
    + exists [], s. split; [constructor|]. right. exists m, (pendingMigrations currentVersion ms), err.
      by cbn.
    + destruct (IH s1) as (done & s2 & Happlied & Hrest).
      exists (m :: done), s2. split; [by econstructor|].
      cbv zeta in *. destruct Hrest as [(Hr & -> & Hs)|(m' & rest & err & -> & He & Hr)].
      * by left.
      * right. by exists m', rest, err.
Qed.

Lemma ascending_pending currentVersion migrations :
  ascending migrations -> ascending (pendingMigrations currentVersion migrations).
Proof.
  rewrite !ascending_StronglySorted. unfold pendingMigrations.
  induction 1 as [|m ms Hms IH Hm]; [constructor|].
  rewrite filter_cons. case_decide; [|done].
  constructor; [done|]. rewrite Forall_forall in Hm |- *.
  intros x [_ Hx]%list_elem_of_filter. by apply Hm.
Qed.

End ExecFacts.

Section MigrateFacts.
Context {W : Type} (db : Queryer W) (newDriver : NewDriver W) (fs : FS) (opts : list Option).

(** [Migrate] once the migrations are resolved and the stored version
    is read. *)
Lemma Migrate_compared s migrations w1 currentVersion w2 :
  let cfg := apply defaultConfig opts in
  let driver := newDriver db cfg.(TableName) in
  let latest := (migrations !!! (length migrations - 1)%nat).(version) in
  let s2 := {| world := w2;
               calls := s.(calls) ++ [CallCreateVersionTable; CallGetVersion] |} in
  loadMigrations fs cfg.(Directory) (Driver.Name driver) = Ok migrations ->
  migrations <> [] ->
  Driver.CreateVersionTable driver s.(world) = (None, w1) ->
  Driver.GetVersion driver w1 = (Ok currentVersion, w2) ->
  Migrate (Some db) (Some newDriver) fs opts s
  = if currentVersion =? latest then (None, s2)
    else if latest <? currentVersion then
      (Some (fmt_Errorf "schema version is ahead of migrations: current=%d, latest=%d"
               [ArgInt currentVersion; ArgInt latest]), s2)
    else applyMigrations db driver fs currentVersion migrations s2.
Proof.
  intros cfg driver latest s2 Hload Hne Hcreate Hget.
  unfold Migrate. fold cfg. fold driver. rewrite Hload.
  destruct migrations as [|m0 ms]; [done|]. cbn [length Nat.eqb].
  unfold mbind, M_bind, mret, M_ret, perform. rewrite Hcreate. cbn [world calls].
  rewrite Hget. cbn [world calls]. rewrite <- app_assoc. cbn [app].
  subst latest s2. cbn [length].
  destruct (currentVersion =? _); [done|]. by destruct (_ <? currentVersion).
Qed.

End MigrateFacts.

(** The in-memory database keeps the work of a transaction apart until
    it commits. *)
Lemma MemDB_transactional driverName tableName :
  Transactional MemDB.db (MemDB.newDriver driverName MemDB.db tableName) MemDB.durable.
Proof.
  split.
  - intros w r w' [= <- <-]. done.
  - intros w0 tx w1 query w r w' [= <- <-]. cbn.
    destruct (MemDB.pending w) as [[qs vs]|]; [|by intros [= <- <-]].
    destruct (String.eqb query MemDB.rejected); by intros [= <- <-].
  - intros w0 tx w1 v w r w' _. cbn.
    destruct (MemDB.pending w) as [[qs vs]|]; [|by intros [= <- <-]].
    case_bool_decide; by intros [= <- <-].
  - intros w0 tx w1 w r w' [= <- <-]. cbn.
    destruct (MemDB.pending w) as [[qs vs]|]; by intros [= <- <-].
  - intros w0 tx w1 w err w' [= <- <-]. cbn.
    destruct (MemDB.pending w) as [[qs vs]|]; intros ?; by simplify_eq.
Qed.

(* ===================================================================== *)
(** * File names: extension, separator, version, driver tag *)
(* ===================================================================== *)

(** C6, as stated, fails: a listing that holds [5_bad_name.sqll] only
    resolves to the empty list and raises no error, since the resolver
    passes over a file without the extension before it parses a name. *)
Lemma wrong_extension_is_skipped :
  loadMigrations (Fixture.listing "migrations" ["5_bad_name.sqll"]) "migrations" "postgres"
  = Ok []
  /\ ~ exists err,
       loadMigrations (Fixture.listing "migrations" ["5_bad_name.sqll"]) "migrations" "postgres"
       = Err err.
Proof. split; [reflexivity|]. intros [err H]. vm_compute in H. discriminate. Qed.

(** C6, amended: for every directory listing whose entries do not end in
    [.sql], resolution succeeds with the empty list; the "invalid
    migration file extension" error is what the parser returns for such a
    name when it is called on it directly. *)
Theorem other_extensions_resolve_to_nothing fs dir activeDriver entries :
  fs.(ReadDir) dir = Ok entries ->
  Forall (fun entry => HasSuffix entry.(Name) migrationFileExt = false) entries ->
  loadMigrations fs dir activeDriver = Ok []
  /\ Forall (fun entry =>
       parseMigrationFileName dir entry.(Name)
       = Err (fmt_Errorf "invalid migration file extension: %s" [ArgString entry.(Name)]))
     entries.
Proof.
  intros Hdir Hall. split.
  - rewrite (loadMigrations_listing _ _ _ _ Hdir).
    rewrite loadEntries_skip_all; [done|]. by apply Forall_forall.
  - eapply Forall_impl; [exact Hall|]. intros entry. apply parse_bad_extension.
Qed.

(** The listing with [5_bad_name.sqll] and [notes.txt]. *)
Lemma other_extensions_witness :
  ReadDir (Fixture.listing "migrations" ["5_bad_name.sqll"; "notes.txt"]) "migrations"
  = Ok [Fixture.file "5_bad_name.sqll"; Fixture.file "notes.txt"]
  /\ loadMigrations (Fixture.listing "migrations" ["5_bad_name.sqll"; "notes.txt"])
       "migrations" "postgres" = Ok []
  /\ parseMigrationFileName "migrations" "5_bad_name.sqll"
     = Err (fmt_Errorf "invalid migration file extension: %s" [ArgString "5_bad_name.sqll"]).
Proof.
  split; [reflexivity|].
  destruct (other_extensions_resolve_to_nothing
              (Fixture.listing "migrations" ["5_bad_name.sqll"; "notes.txt"])
              "migrations" "postgres"
              [Fixture.file "5_bad_name.sqll"; Fixture.file "notes.txt"]
              eq_refl) as [Hload Hparse].
  - repeat constructor.
  - split; [exact Hload|]. exact (Forall_inv Hparse).
Defined.

(** C7, as stated, fails: [1_.sql], with an empty name part, and
    [-1_x.sql], with a negative version, both parse. *)
Lemma empty_name_and_negative_version_parse :
  parseMigrationFileName "migrations" "1_.sql"
  = Ok {| name := ""; version := 1; driver := ""; filePath := "migrations/1_.sql" |}
  /\ parseMigrationFileName "migrations" "-1_x.sql"
     = Ok {| name := "x"; version := -1; driver := ""; filePath := "migrations/-1_x.sql" |}.
Proof. split; vm_compute; reflexivity. Qed.

(** C7, amended: for every file name ending in [.sql], with [base] the
    stem up to its first dot: parsing fails with the "invalid migration
    file name" error when [base] has no underscore; when it has one, [v]
    being the part in front of the first, parsing fails with the "failed
    to parse migration version" error, which wraps the error of [Atoi],
    when [v] is not an optionally signed decimal integer within [int],
    and succeeds with that integer as the version otherwise, whether the
    name part is empty or not and whether the integer is negative or
    not. *)
Theorem file_name_rejection dir base tag :
  "."%char ∉ bytes base ->
  ("_"%char ∉ bytes base ->
   parseMigrationFileName dir (withTag base tag +:+ migrationFileExt)
   = Err (fmt_Errorf "invalid migration file name: %s"
            [ArgString (withTag base tag +:+ migrationFileExt)]))
  /\ forall v rest, base = v +:+ "_" +:+ rest -> "_"%char ∉ bytes v ->
       ((forall n, ~ IntLiteral v n) ->
        exists cause,
          (cause = strconv.ErrSyntax \/ cause = strconv.ErrRange)
          /\ parseMigrationFileName dir (withTag base tag +:+ migrationFileExt)
             = Err (fmt_Errorf "failed to parse migration version: %w"
                      [ArgError (NumError "Atoi" v cause)]))
       /\ (forall n, IntLiteral v n ->
           parseMigrationFileName dir (withTag base tag +:+ migrationFileExt)
           = Ok {| name := ReplaceAll rest "_" " ";
                   version := n;
                   driver := default "" tag;
                   filePath := path.Join [dir; withTag base tag +:+ migrationFileExt] |}).
Proof.
  intros Hdot. split; [by apply parse_no_separator|].
  intros v rest -> Hsep. rewrite parse_separator by done. split.
  - intros Hnot. destruct (strconv.Atoi v) as [n|e] eqn:E.
    + apply Atoi_Ok_inv in E. by destruct (Hnot n).
    + apply Atoi_Err_inv in E as [-> | ->]; eauto.
  - intros n Hn. by rewrite (Atoi_literal v n Hn).
Qed.

(** The file name [-1_x.sql]. *)
Lemma file_name_rejection_witness :
  ("."%char ∉ bytes "-1_x")
  /\ ("_"%char ∉ bytes "-1")
  /\ IntLiteral "-1" (-1)
  /\ parseMigrationFileName "migrations" "-1_x.sql"
     = Ok {| name := "x"; version := -1; driver := ""; filePath := "migrations/-1_x.sql" |}.
Proof.
  assert ("."%char ∉ bytes "-1_x") as Hdot by compute_done.
  assert ("_"%char ∉ bytes "-1") as Hsep by compute_done.
  assert (IntLiteral "-1" (-1)) as Hlit.
  { apply (lit_minus "1"); [discriminate|by repeat constructor|vm_compute; discriminate]. }
  split; [exact Hdot|]. split; [exact Hsep|]. split; [exact Hlit|].
  destruct (file_name_rejection "migrations" "-1_x" None Hdot) as [_ H].
  destruct (H "-1" "x" eq_refl Hsep) as [_ Hok].
  exact (Hok (-1) Hlit).
Defined.

(** C8, as stated, fails: the driver tag of [1_a.b.c.sql] is [b.c], not
    [c]. *)
Lemma driver_tag_keeps_later_dots :
  parseMigrationFileName "migrations" "1_a.b.c.sql"
  = Ok {| name := "a"; version := 1; driver := "b.c"; filePath := "migrations/1_a.b.c.sql" |}
  /\ forall m, parseMigrationFileName "migrations" "1_a.b.c.sql" = Ok m -> m.(driver) <> "c".
Proof.
  split; [vm_compute; reflexivity|]. intros m H. vm_compute in H.
  injection H as <-. discriminate.
Qed.

(** C8, amended: for every file name ending in [.sql] that parses, the
    driver tag is all of the stem after its first dot (so [1_a.b.c.sql]
    yields [b.c], and a stem with one dot yields the segment after it),
    and the empty string for a stem with no dot; whether a name parses
    does not depend on the tag. *)
Theorem driver_tag_after_first_dot dir base tag :
  "."%char ∉ bytes base ->
  (forall m,
     parseMigrationFileName dir (withTag base tag +:+ migrationFileExt) = Ok m ->
     m.(driver) = default "" tag)
  /\ isOk (parseMigrationFileName dir (withTag base tag +:+ migrationFileExt))
     = isOk (parseMigrationFileName dir (base +:+ migrationFileExt)).
Proof.
  intros Hdot.
  change (base +:+ migrationFileExt) with (withTag base None +:+ migrationFileExt).
  rewrite (parse_stem dir base tag Hdot), (parse_stem dir base None Hdot).
  cbv zeta. split.
  - intros m. destruct (negb _); [done|].
    destruct (strconv.Atoi _); [|done]. by intros [= <-].
  - destruct (negb _); [done|]. by destruct (strconv.Atoi _).
Qed.

(** The file name [1_a.b.c.sql]. *)
Lemma driver_tag_witness :
  ("."%char ∉ bytes "1_a")
  /\ parseMigrationFileName "migrations" "1_a.b.c.sql"
     = Ok {| name := "a"; version := 1; driver := "b.c"; filePath := "migrations/1_a.b.c.sql" |}
  /\ {| name := "a"; version := 1; driver := "b.c"; filePath := "migrations/1_a.b.c.sql" |}.(driver)
     = "b.c".
Proof.
  assert ("."%char ∉ bytes "1_a") as Hdot by compute_done.
  split; [exact Hdot|]. split; [reflexivity|].
  destruct (driver_tag_after_first_dot "migrations" "1_a" (Some "b.c") Hdot) as [H _].
  exact (H _ eq_refl).
Defined.

(* ===================================================================== *)
(** * Versions declared twice, and the order of the result *)
(* ===================================================================== *)




(** C10: while a migration for the active driver holds the slot of a
    version, every universal migration of that version that is enumerated
    is dropped and no error is raised, however many there are; so the
    listing with the driver-specific file first resolves, and the same
    files with the two universal ones first give the
    duplicate-version-and-driver error. *)
Theorem duplicates_depend_on_listing_order :
  (forall fs dir activeDriver pre universals migrations i m v,
     fs.(ReadDir) dir = Ok (pre ++ universals) ->
     loadEntries dir activeDriver pre [] = Ok migrations ->
     holdsSlot migrations i m v ->
     m.(driver) = activeDriver -> m.(driver) <> "" ->
     Forall (fun entry => exists u,
               enumerates dir activeDriver entry u /\ u.(version) = v /\ u.(driver) = "")
       universals ->
     loadEntries dir activeDriver (pre ++ universals) [] = Ok migrations
     /\ loadMigrations fs dir activeDriver
        = Ok (slices.SortFunc compareVersions migrations))
  /\ ["1_a.postgres.sql"; "1_b.sql"; "1_c.sql"] ≡ₚ ["1_b.sql"; "1_c.sql"; "1_a.postgres.sql"]
  /\ loadMigrations
       (Fixture.listing "migrations" ["1_a.postgres.sql"; "1_b.sql"; "1_c.sql"])
       "migrations" "postgres"
     = Ok [ {| name := "a"; version := 1; driver := "postgres";
               filePath := "migrations/1_a.postgres.sql" |} ]
  /\ loadMigrations
       (Fixture.listing "migrations" ["1_b.sql"; "1_c.sql"; "1_a.postgres.sql"])
       "migrations" "postgres"
     = Err (fmt_Errorf
              "duplicate migration version and driver: version=%d, driver1=%s, driver2=%s"
              [ArgInt 1; ArgString ""; ArgString ""]).
Proof.
  split; [|split; [|split]].
  - intros fs dir activeDriver pre universals migrations i m v Hdir Hpre Hslot Hm Hne Hall.
    assert (loadEntries dir activeDriver (pre ++ universals) [] = Ok migrations) as Hload.
    { rewrite loadEntries_app, Hpre. by eapply loadEntries_universal_dropped. }
    split; [done|]. by rewrite (loadMigrations_listing _ _ _ _ Hdir), Hload.
  - change ["1_a.postgres.sql"; "1_b.sql"; "1_c.sql"]
      with (["1_a.postgres.sql"] ++ ["1_b.sql"; "1_c.sql"]).
    apply Permutation_app_comm.
  - vm_compute. reflexivity.
  - vm_compute. reflexivity.
Qed.

(** [1_b.sql] and [1_c.sql] enumerated while [1_a.postgres.sql] holds the
    slot of version 1. *)
Lemma duplicates_depend_on_listing_order_witness :
  loadEntries "migrations" "postgres"
    ([Fixture.file "1_a.postgres.sql"] ++ [Fixture.file "1_b.sql"; Fixture.file "1_c.sql"]) []
  = Ok [ {| name := "a"; version := 1; driver := "postgres";
            filePath := "migrations/1_a.postgres.sql" |} ].
Proof.
  destruct duplicates_depend_on_listing_order as [H _].
  refine (proj1 (H (Fixture.listing "migrations" ["1_a.postgres.sql"; "1_b.sql"; "1_c.sql"])
                   "migrations" "postgres"
                   [Fixture.file "1_a.postgres.sql"]
                   [Fixture.file "1_b.sql"; Fixture.file "1_c.sql"]
                   _ 0%nat
                   {| name := "a"; version := 1; driver := "postgres";
                      filePath := "migrations/1_a.postgres.sql" |}
                   1 eq_refl eq_refl _ eq_refl _ _)).
  - split; [reflexivity|]. split; [reflexivity|]. intros j m' Hj. lia.
  - discriminate.
  - repeat constructor.
    + exists {| name := "b"; version := 1; driver := ""; filePath := "migrations/1_b.sql" |}.
      split; [|done]. split; [reflexivity|]. split; [reflexivity|]. split; [reflexivity|].
      by left.
    + exists {| name := "c"; version := 1; driver := ""; filePath := "migrations/1_c.sql" |}.
      split; [|done]. split; [reflexivity|]. split; [reflexivity|]. split; [reflexivity|].
      by left.
Defined.

(** C9, at the failing input: the listing [-9223372036854775808_b.sql],
    [1_a.sql] resolves to version 1 followed by version
    -9223372036854775808, which does not ascend: the comparison of the
    sort takes the difference of the versions, and the difference wraps
    around. *)
Theorem extreme_versions_are_not_sorted :
  loadMigrations
    (Fixture.listing "migrations" ["-9223372036854775808_b.sql"; "1_a.sql"])
    "migrations" "postgres"
  = Ok [ {| name := "a"; version := 1; driver := ""; filePath := "migrations/1_a.sql" |};
         {| name := "b"; version := -9223372036854775808; driver := "";
            filePath := "migrations/-9223372036854775808_b.sql" |} ]
  /\ ~ ascending
         [ {| name := "a"; version := 1; driver := ""; filePath := "migrations/1_a.sql" |};
           {| name := "b"; version := -9223372036854775808; driver := "";
              filePath := "migrations/-9223372036854775808_b.sql" |} ]
  /\ compareVersions
       {| name := "a"; version := 1; driver := ""; filePath := "migrations/1_a.sql" |}
       {| name := "b"; version := -9223372036854775808; driver := "";
          filePath := "migrations/-9223372036854775808_b.sql" |}
     = -9223372036854775807.
Proof.
  split; [vm_compute; reflexivity|]. split; [|vm_compute; reflexivity].
  intros H. specialize (H 0%nat _ _ eq_refl eq_refl). simpl in H. lia.
Qed.

(* ===================================================================== *)
(** * The transactional executor and [Migrate] *)
(* ===================================================================== *)

(** C3: one run of the executor is one of the five runs of [execRun]: a
    failed execution of the file is followed by a rollback and returns the
    "failed to execute migration" error, a failed write of the version is
    followed by a rollback and returns the "failed to set version" error,
    a commit is called only after both went through, and what a rollback
    returns is in no result.  With a storage that keeps the work of a
    transaction apart until it commits, a run that returns an error
    leaves what is durable as it was, and what is durable changes only by
    the commit that ends a run in which the file was executed and the
    version written. *)
Theorem executor_is_all_or_nothing {W D : Type} (db : Queryer W) (driver : Driver.t W)
    (fs : FS) (durable : W -> D) (m : migration) (s : state W) :
  Transactional db driver durable ->
  execRun db driver fs m s
    (execMigration db driver m fs s).1 (execMigration db driver m fs s).2
  /\ ((execMigration db driver m fs s).1 <> None ->
      durable (execMigration db driver m fs s).2.(world) = durable s.(world))
  /\ (durable (execMigration db driver m fs s).2.(world) <> durable s.(world) ->
      (execMigration db driver m fs s).1 = None
      /\ exists data,
           fs.(ReadFile) m.(filePath) = Ok data
           /\ (execMigration db driver m fs s).2.(calls)
              = s.(calls) ++ [CallBeginTx; CallExecContext data;
                              CallAddVersion m.(version); CallCommit]).
Proof.
  intros Htx. pose proof (execMigration_run db driver fs m s) as Hrun.
  split; [done|].
  pose proof (execRun_durable db driver fs durable m s _ _ Htx Hrun) as Hd.
  split.
  - intros Herr. destruct Hd as [?|[? _]]; done.
  - intros Hchanged. destruct Hd as [?|[Hr _]]; [done|]. split; [done|].
    destruct Hrun as [| | | |data tx w1 w2 w3 r w4 Hread]; try done.
    by exists data.
Qed.

(** The first sample migration on the empty in-memory database. *)
Lemma executor_is_all_or_nothing_witness :
  Transactional MemDB.db Sample.sqlite MemDB.durable
  /\ (execMigration MemDB.db Sample.sqlite Sample.initial Sample.users Sample.fresh).1 = None
  /\ MemDB.durable
       (execMigration MemDB.db Sample.sqlite Sample.initial Sample.users Sample.fresh).2.(world)
     = ([], ["CREATE TABLE users (id INT)"], [1])
  /\ execRun MemDB.db Sample.sqlite Sample.users Sample.initial Sample.fresh
       (execMigration MemDB.db Sample.sqlite Sample.initial Sample.users Sample.fresh).1
       (execMigration MemDB.db Sample.sqlite Sample.initial Sample.users Sample.fresh).2.
Proof.
  split; [apply MemDB_transactional|]. split; [reflexivity|]. split; [reflexivity|].
  exact (proj1 (executor_is_all_or_nothing MemDB.db Sample.sqlite Sample.users
                  MemDB.durable Sample.initial Sample.fresh
                  (MemDB_transactional "sqlite" defaultTableName))).
Defined.



(** C4: when the stored version equals the version of the last resolved
    migration, [Migrate] returns success, and the calls it makes are the
    creation of the version table and the reading of the version: no
    transaction is begun, nothing is executed and no version is written.
    So it is for a second run after a first one that applied all. *)
Theorem migrate_up_to_date_is_noop {W : Type} (db : Queryer W)
    (newDriver : NewDriver W) (fs : FS) (opts : list Option) (s : state W)
    (migrations : list migration) (w1 : W) (currentVersion : Z) (w2 : W) :
  loadMigrations fs (apply defaultConfig opts).(Directory)
    (Driver.Name (newDriver db (apply defaultConfig opts).(TableName))) = Ok migrations ->
  migrations <> [] ->
  Driver.CreateVersionTable (newDriver db (apply defaultConfig opts).(TableName)) s.(world)
  = (None, w1) ->
  Driver.GetVersion (newDriver db (apply defaultConfig opts).(TableName)) w1
  = (Ok currentVersion, w2) ->
  currentVersion = (migrations !!! (length migrations - 1)%nat).(version) ->
  Migrate (Some db) (Some newDriver) fs opts s
  = (None, {| world := w2; calls := s.(calls) ++ [CallCreateVersionTable; CallGetVersion] |}).
Proof.
  intros Hload Hne Hcreate Hget Hsame.
  rewrite (Migrate_compared db newDriver fs opts s migrations w1 currentVersion w2
             Hload Hne Hcreate Hget).
  by rewrite <- Hsame, Z.eqb_refl.
Qed.

(** A second run on the in-memory database after a first run that
    applied both sample migrations: the store is as the first run left
    it. *)
Lemma migrate_up_to_date_is_noop_witness :
  (Migrate (Some MemDB.db) (Some Sample.newDriver) Sample.users [] Sample.fresh).1 = None
  /\ Migrate (Some MemDB.db) (Some Sample.newDriver) Sample.users []
       (Migrate (Some MemDB.db) (Some Sample.newDriver) Sample.users [] Sample.fresh).2
     = (None,
        {| world :=
             (Migrate (Some MemDB.db) (Some Sample.newDriver) Sample.users [] Sample.fresh).2.(world);
           calls :=
             (Migrate (Some MemDB.db) (Some Sample.newDriver) Sample.users [] Sample.fresh).2.(calls)
             ++ [CallCreateVersionTable; CallGetVersion] |}).
Proof.
  split; [vm_compute; reflexivity|].
  refine (migrate_up_to_date_is_noop MemDB.db Sample.newDriver Sample.users []
            (Migrate (Some MemDB.db) (Some Sample.newDriver) Sample.users [] Sample.fresh).2
            [Sample.initial; Sample.add_email] _ 2 _ _ _ _ _ _).
  - vm_compute. reflexivity.
  - discriminate.
  - vm_compute. reflexivity.
  - vm_compute. reflexivity.
  - reflexivity.
Defined.

(** C5: when the stored version is above the version of the last
    resolved migration, [Migrate] returns the "schema version is ahead of
    migrations" error with both versions, and the calls it makes are the
    creation of the version table and the reading of the version: no
    transaction is begun, nothing is executed and no version is written. *)
Theorem migrate_ahead_fails_untouched {W : Type} (db : Queryer W)
    (newDriver : NewDriver W) (fs : FS) (opts : list Option) (s : state W)
    (migrations : list migration) (w1 : W) (currentVersion : Z) (w2 : W) :
  loadMigrations fs (apply defaultConfig opts).(Directory)
    (Driver.Name (newDriver db (apply defaultConfig opts).(TableName))) = Ok migrations ->
  migrations <> [] ->
  Driver.CreateVersionTable (newDriver db (apply defaultConfig opts).(TableName)) s.(world)
  = (None, w1) ->
  Driver.GetVersion (newDriver db (apply defaultConfig opts).(TableName)) w1
  = (Ok currentVersion, w2) ->
  (migrations !!! (length migrations - 1)%nat).(version) < currentVersion ->
  Migrate (Some db) (Some newDriver) fs opts s
  = (Some (fmt_Errorf "schema version is ahead of migrations: current=%d, latest=%d"
             [ArgInt currentVersion;
              ArgInt (migrations !!! (length migrations - 1)%nat).(version)]),
     {| world := w2; calls := s.(calls) ++ [CallCreateVersionTable; CallGetVersion] |}).
Proof.
  intros Hload Hne Hcreate Hget Hahead.
  rewrite (Migrate_compared db newDriver fs opts s migrations w1 currentVersion w2
             Hload Hne Hcreate Hget).
  destruct (Z.eqb_spec currentVersion (version (migrations !!! (length migrations - 1)%nat)));
    [lia|].
  destruct (Z.ltb_spec (version (migrations !!! (length migrations - 1)%nat)) currentVersion);
    [done|lia].
Qed.

(** The sample files, versions 1 and 2, against a stored version of 5. *)
Lemma migrate_ahead_fails_untouched_witness :
  Migrate (Some MemDB.db) (Some Sample.newDriver) Sample.users []
    (MemDB.start {| MemDB.tables := ["gomigrate"]; MemDB.statements := ["-- by hand"];
                    MemDB.rows := [1; 2; 5]; MemDB.pending := None |})
  = (Some (fmt_Errorf "schema version is ahead of migrations: current=%d, latest=%d"
             [ArgInt 5; ArgInt 2]),
     {| world := {| MemDB.tables := ["gomigrate"]; MemDB.statements := ["-- by hand"];
                    MemDB.rows := [1; 2; 5]; MemDB.pending := None |};
        calls := [CallCreateVersionTable; CallGetVersion] |}).
Proof.
  refine (migrate_ahead_fails_untouched MemDB.db Sample.newDriver Sample.users []
            (MemDB.start {| MemDB.tables := ["gomigrate"]; MemDB.statements := ["-- by hand"];
                            MemDB.rows := [1; 2; 5]; MemDB.pending := None |})
            [Sample.initial; Sample.add_email] _ 5 _ _ _ _ _ _).
  - vm_compute. reflexivity.
  - discriminate.
  - reflexivity.
  - reflexivity.
  - vm_compute. reflexivity.
Defined.

(* ===================================================================== *)
(** * More on the resolver: what it returns, what it passes over *)
(* ===================================================================== *)

Section CandidateFacts.
Context (dir activeDriver : string).

Lemma candidate_enumerates entry mig :
  candidate dir activeDriver entry = Some mig <-> enumerates dir activeDriver entry mig.
Proof.
  unfold candidate, enumerates, keptFor. split.
  - destruct (IsDir entry); [done|]. destruct (HasSuffix _ _); [|done]. cbn [negb].
    destruct (parseMigrationFileName dir (Name entry)) as [m|]; [|done].
    destruct (String.eqb_spec (driver m) ""); cbn [negb andb].
    { intros [= <-]. eauto. }
    destruct (String.eqb_spec (driver m) activeDriver); cbn [negb]; [|done].
    intros [= <-]. eauto 6.
  - intros (-> & -> & -> & Hk). cbn [negb].
    destruct Hk as [-> | ->]; [done|]. by rewrite String.eqb_refl, andb_false_r.
Qed.

Lemma loadEntry_malformed migrations entry :
  malformed dir entry = true ->
  exists err,
    parseMigrationFileName dir entry.(Name) = Err err
    /\ loadEntry dir activeDriver migrations entry
       = Err (fmt_Errorf "failed to parse migration file name: %w" [ArgError err]).
Proof.
  unfold malformed, loadEntry.
  destruct (IsDir entry); [done|]. destruct (HasSuffix _ _); [|done]. cbn [negb andb].
  destruct (parseMigrationFileName dir (Name entry)) as [m|err]; [done|]. eauto.
Qed.

Lemma loadEntry_passedOver migrations entry :
  passedOver dir activeDriver entry = true ->
  loadEntry dir activeDriver migrations entry = Ok migrations.
Proof.
  unfold passedOver, malformed, candidate, loadEntry.
  destruct (IsDir entry); [done|]. destruct (HasSuffix _ _); [|done]. cbn [negb andb].
  destruct (parseMigrationFileName dir (Name entry)) as [m|err]; [|done]. cbn [isOk negb].
  by destruct (negb _ && negb _).
Qed.

(** An entry is malformed, a candidate, or passed over. *)
Lemma entry_cases entry :
  malformed dir entry = true
  \/ (exists mig, candidate dir activeDriver entry = Some mig /\ malformed dir entry = false)
  \/ (passedOver dir activeDriver entry = true /\ candidate dir activeDriver entry = None).
Proof.
  unfold passedOver. destruct (malformed dir entry) eqn:Hm; [by left|right].
  destruct (candidate dir activeDriver entry) as [mig|]; [left; eauto|by right].
Qed.

Lemma candidate_not_malformed entry mig :
  candidate dir activeDriver entry = Some mig -> malformed dir entry = false.
Proof.
  intros (Hd & Hs & Hp & _)%candidate_enumerates. unfold malformed.
  by rewrite Hd, Hs, Hp.
Qed.

(** The elements of the slice after a turn are those before it and the
    migration of the entry. *)
Lemma loadEntry_elements migrations entry migrations' m :
  loadEntry dir activeDriver migrations entry = Ok migrations' ->
  m ∈ migrations' -> m ∈ migrations \/ enumerates dir activeDriver entry m.
Proof.
  intros Hload Hin.
  destruct (loadEntry_cases dir activeDriver migrations entry)
    as [E|[(err & _ & E)|(mig & Hmig)]].
  { rewrite E in Hload. injection Hload as <-. by left. }
  { by rewrite E in Hload. }
  rewrite (loadEntry_enumerates _ _ _ _ _ Hmig) in Hload.
  destruct (findVersion activeDriver mig migrations 0 migrations) as [[ms|]|] eqn:Hfind;
    [|done|].
  - injection Hload as <-.
    destruct (slot_cases migrations (version mig)) as [Hnone|(i & m0 & Hslot)].
    { by rewrite findVersion_none in Hfind. }
    rewrite (findVersion_slot _ _ _ _ _ Hslot) in Hfind.
    destruct (String.eqb (driver m0) (driver mig)); [done|].
    destruct (String.eqb (driver mig) activeDriver); injection Hfind as <-; [|by left].
    apply list_elem_of_lookup in Hin as [j Hj].
    destruct (decide (j = i)) as [->|Hne].
    + destruct Hslot as (Hi & _). apply lookup_lt_Some in Hi.
      rewrite list_lookup_insert_eq in Hj by done. injection Hj as <-. by right.
    + rewrite list_lookup_insert_ne in Hj by done. left. by eapply list_elem_of_lookup_2.
  - injection Hload as <-. apply elem_of_app in Hin as [?|Hin]; [by left|].
    apply list_elem_of_singleton in Hin as ->. by right.
Qed.

Lemma loadEntries_elements entries : forall migrations migrations' m,
  loadEntries dir activeDriver entries migrations = Ok migrations' ->
  m ∈ migrations' ->
  m ∈ migrations \/ exists entry, entry ∈ entries /\ enumerates dir activeDriver entry m.
Proof.
  induction entries as [|e entries IH]; intros ms ms' m Hload Hin.
  - injection Hload as <-. by left.
  - simpl in Hload. destruct (loadEntry dir activeDriver ms e) as [ms1|] eqn:E; [|done].
    destruct (IH _ _ _ Hload Hin) as [Hin1|(entry & He & Hm)].
    + destruct (loadEntry_elements _ _ _ _ E Hin1) as [?|?]; [by left|].
      right. exists e. split; [by left|done].
    + right. exists entry. split; [by right|done].
Qed.

Lemma loadEntries_malformed entries : forall migrations entry,
  entry ∈ entries -> malformed dir entry = true ->
  exists err, loadEntries dir activeDriver entries migrations = Err err.
Proof.
  induction entries as [|e entries IH]; intros ms entry Hin Hbad.
  - by apply elem_of_nil in Hin.
  - simpl. destruct (loadEntry dir activeDriver ms e) as [ms1|err] eqn:E; [|eauto].
    apply elem_of_cons in Hin as [->|Hin]; [|by eapply IH].
    destruct (loadEntry_malformed ms e Hbad) as (err & _ & E'). congruence.
Qed.

Lemma loadEntries_filter_passedOver entries : forall migrations,
  loadEntries dir activeDriver entries migrations
  = loadEntries dir activeDriver
      (filter (fun entry => passedOver dir activeDriver entry = false) entries) migrations.
Proof.
  induction entries as [|e entries IH]; intros ms; [done|].
  rewrite filter_cons. case_decide as Hp.
  - simpl. destruct (loadEntry dir activeDriver ms e); [apply IH|done].
  - apply not_false_is_true in Hp. simpl. rewrite (loadEntry_passedOver _ _ Hp). apply IH.
Qed.

(** With no malformed file and no version twice among the candidates,
    the slice is the candidates in the order of the listing. *)
Lemma loadEntries_distinct entries : forall migrations,
  Forall (fun entry => malformed dir entry = false) entries ->
  NoDup (map version (migrations ++ keptMigrations dir activeDriver entries)) ->
  loadEntries dir activeDriver entries migrations
  = Ok (migrations ++ keptMigrations dir activeDriver entries).
Proof.
  induction entries as [|e entries IH]; intros ms Hwell Hnd.
  - simpl. by rewrite app_nil_r.
  - apply Forall_cons in Hwell as [He Hwell]. simpl. unfold keptMigrations in *. simpl in *.
    destruct (entry_cases e) as [?|[(mig & Hc & _)|[Hp Hc]]]; [congruence| |].
    + rewrite Hc in *. simpl in *.
      rewrite (loadEntry_enumerates _ _ _ _ _ (proj1 (candidate_enumerates _ _) Hc)).
      rewrite findVersion_none.
      * rewrite IH; [by rewrite <- app_assoc|done|by rewrite <- app_assoc].
      * rewrite map_app in Hnd. simpl in Hnd. apply NoDup_app in Hnd as (_ & Hdisj & _).
        apply Forall_forall. intros m Hm Heq. apply (Hdisj (version m)).
        -- change (map version ms) with (version <$> ms). by apply list_elem_of_fmap_2.
        -- rewrite Heq. by left.
    + rewrite Hc in *. simpl in *. rewrite (loadEntry_passedOver _ _ Hp). by apply IH.
Qed.

End CandidateFacts.

(** X1: the versions of a resolved list are pairwise distinct, whatever
    the listing and the active driver. *)
Theorem resolved_versions_unique fs dir activeDriver migrations :
  loadMigrations fs dir activeDriver = Ok migrations ->
  NoDup (map version migrations).
Proof.
  unfold loadMigrations. destruct (ReadDir fs dir) as [entries|]; [|done].
  destruct (loadEntries dir activeDriver entries []) as [slice|] eqn:E; [|done].
  intros [= <-].
  apply (loadEntries_resolved dir activeDriver) in E as (_ & _ & Hnd); [|apply resolved_nil].
  change map with (@fmap list _). by rewrite SortFunc_perm.
Qed.

Lemma resolved_versions_unique_witness :
  loadMigrations Mixed.files "migrations" "postgres" = Ok [Mixed.initial; Mixed.some_changes]
  /\ NoDup (map version [Mixed.initial; Mixed.some_changes]).
Proof.
  assert (loadMigrations Mixed.files "migrations" "postgres"
          = Ok [Mixed.initial; Mixed.some_changes]) as H by (vm_compute; reflexivity).
  split; [exact H|]. exact (resolved_versions_unique _ _ _ _ H).
Defined.

(** X2: every migration of a resolved list is what the parser returns
    for a file of the listing that has the extension, and is universal or
    tagged with the active driver; nothing else gets into the result. *)
Theorem resolved_migrations_come_from_listing fs dir activeDriver entries migrations m :
  fs.(ReadDir) dir = Ok entries ->
  loadMigrations fs dir activeDriver = Ok migrations ->
  m ∈ migrations ->
  exists entry,
    entry ∈ entries
    /\ entry.(IsDir) = false
    /\ HasSuffix entry.(Name) migrationFileExt = true
    /\ parseMigrationFileName dir entry.(Name) = Ok m
    /\ (m.(driver) = "" \/ m.(driver) = activeDriver).
Proof.
  intros Hdir Hload Hin. rewrite (loadMigrations_listing _ _ _ _ Hdir) in Hload.
  destruct (loadEntries dir activeDriver entries []) as [slice|] eqn:E; [|done].
  injection Hload as <-. rewrite SortFunc_perm in Hin.
  destruct (loadEntries_elements dir activeDriver _ _ _ _ E Hin)
    as [[]%elem_of_nil|(entry & He & Hm)].
  exists entry. split; [done|]. exact Hm.
Qed.

Lemma resolved_migrations_come_from_listing_witness :
  exists entry,
    entry ∈ Mixed.entries
    /\ entry.(IsDir) = false
    /\ HasSuffix entry.(Name) migrationFileExt = true
    /\ parseMigrationFileName "migrations" entry.(Name) = Ok Mixed.some_changes
    /\ (Mixed.some_changes.(driver) = "" \/ Mixed.some_changes.(driver) = "postgres").
Proof.
  refine (resolved_migrations_come_from_listing Mixed.files "migrations" "postgres"
            Mixed.entries [Mixed.initial; Mixed.some_changes] Mixed.some_changes _ _ _).
  - reflexivity.
  - vm_compute. reflexivity.
  - apply elem_of_cons. right. apply elem_of_cons. by left.
Defined.

(** X3: a resolved list in which no version is negative ascends
    strictly by version. *)
Theorem resolved_list_ascends_without_negative_versions fs dir activeDriver migrations :
  loadMigrations fs dir activeDriver = Ok migrations ->
  Forall (fun m => 0 <= m.(version)) migrations ->
  ascending migrations.
Proof. apply loadMigrations_ascending_nonnegative. Qed.

Lemma resolved_list_ascends_witness :
  loadMigrations (Fixture.listing "migrations" ["10_b.sql"; "1_a.sql"; "2_c.sql"])
    "migrations" "postgres"
  = Ok [ {| name := "a"; version := 1; driver := ""; filePath := "migrations/1_a.sql" |};
         {| name := "c"; version := 2; driver := ""; filePath := "migrations/2_c.sql" |};
         {| name := "b"; version := 10; driver := ""; filePath := "migrations/10_b.sql" |} ]
  /\ ascending
       [ {| name := "a"; version := 1; driver := ""; filePath := "migrations/1_a.sql" |};
         {| name := "c"; version := 2; driver := ""; filePath := "migrations/2_c.sql" |};
         {| name := "b"; version := 10; driver := ""; filePath := "migrations/10_b.sql" |} ].
Proof.
  assert (loadMigrations (Fixture.listing "migrations" ["10_b.sql"; "1_a.sql"; "2_c.sql"])
            "migrations" "postgres"
          = Ok [ {| name := "a"; version := 1; driver := ""; filePath := "migrations/1_a.sql" |};
                 {| name := "c"; version := 2; driver := ""; filePath := "migrations/2_c.sql" |};
                 {| name := "b"; version := 10; driver := "";
                    filePath := "migrations/10_b.sql" |} ]) as H
    by (vm_compute; reflexivity).
  split; [exact H|].
  refine (resolved_list_ascends_without_negative_versions _ _ _ _ H _).
  repeat constructor; discriminate.
Defined.

(** X4: one file with the extension whose name does not parse makes the
    whole resolution fail, also when the file is tagged for another
    driver: the name is parsed before the driver filter. *)
Theorem malformed_file_fails_resolution fs dir activeDriver entries entry :
  fs.(ReadDir) dir = Ok entries ->
  entry ∈ entries ->
  malformed dir entry = true ->
  exists err, loadMigrations fs dir activeDriver = Err err.
Proof.
  intros Hdir Hin Hbad. rewrite (loadMigrations_listing _ _ _ _ Hdir).
  destruct (loadEntries_malformed dir activeDriver entries [] entry Hin Hbad) as [err ->].
  eauto.
Qed.

Lemma malformed_file_fails_resolution_witness :
  malformed "migrations" (Fixture.file "x_y.mysql.sql") = true
  /\ exists err, loadMigrations Mixed.withMalformed "migrations" "postgres" = Err err.
Proof.
  split; [reflexivity|].
  refine (malformed_file_fails_resolution Mixed.withMalformed "migrations" "postgres"
            (Mixed.entries ++ [Fixture.file "x_y.mysql.sql"])
            (Fixture.file "x_y.mysql.sql") _ _ _).
  - reflexivity.
  - apply elem_of_app. right. apply elem_of_cons. by left.
  - reflexivity.
Defined.

(** X5: directories, files without the extension and migrations tagged
    for another driver do not count: a listing resolves as it does
    without them. *)
Theorem passed_over_entries_do_not_count fs fs' dir activeDriver entries :
  fs.(ReadDir) dir = Ok entries ->
  fs'.(ReadDir) dir
  = Ok (filter (fun entry => passedOver dir activeDriver entry = false) entries) ->
  loadMigrations fs dir activeDriver = loadMigrations fs' dir activeDriver.
Proof.
  intros Hdir Hdir'.
  rewrite (loadMigrations_listing _ _ _ _ Hdir), (loadMigrations_listing _ _ _ _ Hdir').
  by rewrite <- loadEntries_filter_passedOver.
Qed.

Lemma passed_over_entries_do_not_count_witness :
  filter (fun entry => passedOver "migrations" "postgres" entry = false) Mixed.entries
  = [Fixture.file "1_initial.sql"; Fixture.file "2_some_changes.postgres.sql"]
  /\ loadMigrations Mixed.files "migrations" "postgres"
     = loadMigrations
         (Fixture.listing "migrations" ["1_initial.sql"; "2_some_changes.postgres.sql"])
         "migrations" "postgres".
Proof.
  split; [vm_compute; reflexivity|].
  refine (passed_over_entries_do_not_count Mixed.files _ "migrations" "postgres"
            Mixed.entries _ _).
  - reflexivity.
  - vm_compute. reflexivity.
Defined.

(** X6: when no file with the extension is malformed and no two kept
    migrations share a version, resolution succeeds and returns every
    kept migration, sorted: none is dropped and none is replaced. *)
Theorem distinct_versions_are_all_returned fs dir activeDriver entries :
  fs.(ReadDir) dir = Ok entries ->
  Forall (fun entry => malformed dir entry = false) entries ->
  NoDup (map version (keptMigrations dir activeDriver entries)) ->
  loadMigrations fs dir activeDriver
  = Ok (slices.SortFunc compareVersions (keptMigrations dir activeDriver entries))
  /\ slices.SortFunc compareVersions (keptMigrations dir activeDriver entries)
     ≡ₚ keptMigrations dir activeDriver entries.
Proof.
  intros Hdir Hwell Hnd. split; [|apply SortFunc_perm].
  rewrite (loadMigrations_listing _ _ _ _ Hdir).
  by rewrite (loadEntries_distinct dir activeDriver entries [] Hwell Hnd).
Qed.

Lemma distinct_versions_are_all_returned_witness :
  keptMigrations "migrations" "postgres" Mixed.entries = [Mixed.initial; Mixed.some_changes]
  /\ loadMigrations Mixed.files "migrations" "postgres"
     = Ok (slices.SortFunc compareVersions
             (keptMigrations "migrations" "postgres" Mixed.entries)).
Proof.
  split; [vm_compute; reflexivity|].
  refine (proj1 (distinct_versions_are_all_returned Mixed.files "migrations" "postgres"
                   Mixed.entries _ _ _)).
  - reflexivity.
  - repeat constructor.
  - apply (bool_decide_unpack _). vm_compute. exact I.
Defined.

(** X7: when no file with the extension is malformed, no two kept
    migrations share a version and no version is negative, the order of
    the listing does not matter: two listings with the same entries
    resolve to the same list. *)
Theorem listing_order_is_immaterial_without_conflicts
    fs1 fs2 dir activeDriver entries1 entries2 :
  fs1.(ReadDir) dir = Ok entries1 ->
  fs2.(ReadDir) dir = Ok entries2 ->
  entries1 ≡ₚ entries2 ->
  Forall (fun entry => malformed dir entry = false) entries1 ->
  NoDup (map version (keptMigrations dir activeDriver entries1)) ->
  Forall (fun m => 0 <= m.(version)) (keptMigrations dir activeDriver entries1) ->
  loadMigrations fs1 dir activeDriver = loadMigrations fs2 dir activeDriver.
Proof.
  intros Hdir1 Hdir2 Hperm Hwell Hnd Hnn.
  assert (keptMigrations dir activeDriver entries1 ≡ₚ keptMigrations dir activeDriver entries2)
    as Hkept by (unfold keptMigrations; by rewrite Hperm).
  assert (differencesFit (keptMigrations dir activeDriver entries1)) as Hfit.
  { assert (forall m, m ∈ keptMigrations dir activeDriver entries1 ->
                      0 <= version m <= maxInt) as Hrange.
    { intros m Hm. rewrite Forall_forall in Hnn. split; [by apply Hnn|].
      apply list_elem_of_omap in Hm as (entry & _ & Hc).
      apply candidate_enumerates in Hc as (_ & _ & Hp & _).
      by destruct (parse_version_is_int _ _ _ Hp). }
    intros a b Ha Hb. pose proof (Hrange a Ha). pose proof (Hrange b Hb).
    rewrite minInt_val, maxInt_val in *. lia. }
  destruct (distinct_versions_are_all_returned fs1 dir activeDriver entries1 Hdir1 Hwell Hnd)
    as [-> _].
  destruct (distinct_versions_are_all_returned fs2 dir activeDriver entries2 Hdir2)
    as [-> _].
  { by rewrite <- Hperm. }
  { change map with (@fmap list _). by rewrite <- Hkept. }
  f_equal. symmetry. apply SortFunc_unique; [done|done| |].
  - by rewrite SortFunc_perm.
  - apply SortFunc_ascending.
    + intros a b Ha Hb. apply Hfit; by rewrite Hkept.
    + change map with (@fmap list _). by rewrite <- Hkept.
Qed.

Lemma listing_order_is_immaterial_witness :
  loadMigrations Mixed.files "migrations" "postgres"
  = loadMigrations
      (Fixture.listing "migrations"
         ["README.md"; "2_some_changes.postgres.sql"; "2_some_changes.sqlite.sql";
          "1_initial.sql"])
      "migrations" "postgres".
Proof.
  refine (listing_order_is_immaterial_without_conflicts Mixed.files _ "migrations" "postgres"
            Mixed.entries
            (map Fixture.file ["README.md"; "2_some_changes.postgres.sql";
                               "2_some_changes.sqlite.sql"; "1_initial.sql"])
            _ _ _ _ _ _).
  - reflexivity.
  - reflexivity.
  - apply (bool_decide_unpack _). vm_compute. exact I.
  - repeat constructor.
  - apply (bool_decide_unpack _). vm_compute. exact I.
  - repeat constructor; discriminate.
Defined.

(* ===================================================================== *)
(** * More on the parser: the shape of what parses *)
(* ===================================================================== *)

Section ParsedFacts.

Lemma parse_Ok_suffix dir fileName m :
  parseMigrationFileName dir fileName = Ok m -> HasSuffix fileName migrationFileExt = true.
Proof.
  intros H. destruct (HasSuffix fileName migrationFileExt) eqn:E; [done|].
  by rewrite parse_bad_extension in H.
Qed.

Lemma parse_Ok_inv dir fileName m :
  parseMigrationFileName dir fileName = Ok m ->
  exists v rest tag,
    fileName = withTag (v +:+ "_" +:+ rest) tag +:+ migrationFileExt
    /\ ("_"%char ∉ bytes v)
    /\ ("."%char ∉ bytes (v +:+ "_" +:+ rest))
    /\ strconv.Atoi v = Ok m.(version)
    /\ m.(name) = ReplaceAll rest "_" " "
    /\ m.(driver) = default "" tag
    /\ m.(filePath) = path.Join [dir; fileName].
Proof.
  intros Hparse. pose proof (parse_Ok_suffix _ _ _ Hparse) as [stem ->]%HasSuffix_inv.
  destruct (stem_cases stem) as (base & tag & -> & Hdot).
  destruct (decide ("_"%char ∈ bytes base)) as [Hin|Hnot].
  2:{ by rewrite parse_no_separator in Hparse. }
  apply first_occurrence in Hin as (v & rest & -> & Hv).
  change (v +:+ String "_" rest) with (v +:+ "_" +:+ rest) in *.
  rewrite parse_separator in Hparse by done.
  destruct (strconv.Atoi v) as [n|] eqn:E; [|done]. injection Hparse as <-.
  by exists v, rest, tag.
Qed.

(** Replacing one byte by another is a map over the bytes. *)
Lemma ReplaceAll_byte s old new :
  bytes (ReplaceAll s (String old "") (String new ""))
  = map (fun c => if Ascii.eqb c old then new else c) (bytes s).
Proof.
  unfold ReplaceAll. induction s as [|c s IH]; [done|].
  cbn [replaceFrom bytes map]. rewrite HasPrefix_char.
  destruct (Ascii.eqb c old).
  - rewrite app_String, app_empty_l. cbn [String.length Nat.sub bytes]. by rewrite IH.
  - cbn [bytes]. by rewrite IH.
Qed.

End ParsedFacts.

(** X8: a file name that parses has the form of an integer literal, an
    underscore, a name part and, optionally, a dot and a driver tag, in
    front of the extension; the version is the value of the literal, the
    name is the name part with spaces for underscores, the driver is the
    tag, and the path is the directory joined with the file name. *)
Theorem parsed_file_name_decomposes dir fileName m :
  parseMigrationFileName dir fileName = Ok m ->
  exists v rest tag,
    fileName = withTag (v +:+ "_" +:+ rest) tag +:+ migrationFileExt
    /\ ("_"%char ∉ bytes v)
    /\ ("."%char ∉ bytes (v +:+ "_" +:+ rest))
    /\ IntLiteral v m.(version)
    /\ m.(name) = ReplaceAll rest "_" " "
    /\ m.(driver) = default "" tag
    /\ m.(filePath) = path.Join [dir; fileName].
Proof.
  intros (v & rest & tag & ? & ? & ? & Hv%Atoi_Ok_inv & ?)%parse_Ok_inv.
  by exists v, rest, tag.
Qed.

Lemma parsed_file_name_decomposes_witness :
  exists v rest tag,
    "2_some_changes.postgres.sql" = withTag (v +:+ "_" +:+ rest) tag +:+ migrationFileExt
    /\ ("_"%char ∉ bytes v)
    /\ ("."%char ∉ bytes (v +:+ "_" +:+ rest))
    /\ IntLiteral v Mixed.some_changes.(version)
    /\ Mixed.some_changes.(name) = ReplaceAll rest "_" " "
    /\ Mixed.some_changes.(driver) = default "" tag
    /\ Mixed.some_changes.(filePath) = path.Join ["migrations"; "2_some_changes.postgres.sql"].
Proof.
  exact (parsed_file_name_decomposes "migrations" "2_some_changes.postgres.sql"
           Mixed.some_changes eq_refl).
Defined.

(** X9: the name of a parsed migration has no underscore and no dot in
    it. *)
Theorem parsed_name_has_no_separator dir fileName m :
  parseMigrationFileName dir fileName = Ok m ->
  ("_"%char ∉ bytes m.(name)) /\ ("."%char ∉ bytes m.(name)).
Proof.
  intros (v & rest & tag & _ & _ & Hdot & _ & -> & _)%parse_Ok_inv.
  change "_"%string with (String "_"%char "") at 1 2.
  change " "%string with (String " "%char ""). rewrite ReplaceAll_byte.
  split.
  - intros (c & Hc & _)%list_elem_of_fmap.
    destruct (Ascii.eqb_spec c "_"); [discriminate|congruence].
  - intros (c & Hc & Hin)%list_elem_of_fmap. apply Hdot.
    rewrite !bytes_app, !elem_of_app. right. right.
    destruct (Ascii.eqb_spec c "_"); [discriminate|congruence].
Qed.

Lemma parsed_name_has_no_separator_witness :
  ("_"%char ∉ bytes Mixed.some_changes.(name)) /\ ("."%char ∉ bytes Mixed.some_changes.(name)).
Proof.
  exact (parsed_name_has_no_separator "migrations" "2_some_changes.postgres.sql"
           Mixed.some_changes eq_refl).
Defined.

(* ===================================================================== *)
(** * The options *)
(* ===================================================================== *)

Section OptionFacts.

Lemma apply_snoc c opts opt : apply c (opts ++ [opt]) = opt (apply c opts).
Proof. unfold apply. by rewrite fold_left_app. Qed.

Lemma apply_cons c opt opts : apply c (opt :: opts) = apply (opt c) opts.
Proof. reflexivity. Qed.

Lemma apply_app c opts1 opts2 : apply c (opts1 ++ opts2) = apply (apply c opts1) opts2.
Proof. unfold apply. by rewrite fold_left_app. Qed.

Lemma apply_keeps_Directory settings : forall c,
  Forall (fun o => ~ setsDirectory o) settings ->
  (apply c (map toOption settings)).(Directory) = c.(Directory).
Proof.
  induction settings as [|o settings IH]; intros c Hall; [done|].
  apply Forall_cons in Hall as [Ho Hall]. simpl. unfold apply in *. simpl.
  rewrite IH by done. by destruct o.
Qed.

Lemma apply_keeps_TableName settings : forall c,
  Forall (fun o => ~ setsTableName o) settings ->
  (apply c (map toOption settings)).(TableName) = c.(TableName).
Proof.
  induction settings as [|o settings IH]; intros c Hall; [done|].
  apply Forall_cons in Hall as [Ho Hall]. simpl. unfold apply in *. simpl.
  rewrite IH by done. by destruct o.
Qed.

Lemma apply_keeps_Logger settings : forall c,
  Forall (fun o => ~ setsLogger o) settings ->
  (apply c (map toOption settings)).(Logger) = c.(Logger).
Proof.
  induction settings as [|o settings IH]; intros c Hall; [done|].
  apply Forall_cons in Hall as [Ho Hall]. simpl. unfold apply in *. simpl.
  rewrite IH by done. by destruct o.
Qed.

End OptionFacts.

(** X10: the options apply in the order given and the last one for a
    field wins: after any options, the directory is that of the last
    [WithDirectory], the table name that of the last [WithTableName] and
    the logger that of the last [WithLogger], whatever options for other
    fields come before or after; a field no option names keeps its
    default. *)
Theorem last_option_wins (c : config) (before after : list setting) :
  (forall dir, Forall (fun o => ~ setsDirectory o) after ->
     (apply c (map toOption (before ++ SetDirectory dir :: after))).(Directory) = dir)
  /\ (forall name, Forall (fun o => ~ setsTableName o) after ->
        (apply c (map toOption (before ++ SetTableName name :: after))).(TableName) = name)
  /\ (forall l, Forall (fun o => ~ setsLogger o) after ->
        (apply c (map toOption (before ++ SetLogger l :: after))).(Logger) = l)
  /\ (Forall (fun o => ~ setsDirectory o) after ->
      (apply defaultConfig (map toOption after)).(Directory) = "migrations")
  /\ (Forall (fun o => ~ setsTableName o) after ->
      (apply defaultConfig (map toOption after)).(TableName) = "gomigrate").
Proof.
  split; [|split; [|split; [|split]]].
  - intros dir Hafter. rewrite map_app, apply_app. cbn [map].
    rewrite apply_cons. by rewrite apply_keeps_Directory.
  - intros name Hafter. rewrite map_app, apply_app. cbn [map].
    rewrite apply_cons. by rewrite apply_keeps_TableName.
  - intros l Hafter. rewrite map_app, apply_app. cbn [map].
    rewrite apply_cons. by rewrite apply_keeps_Logger.
  - intros Hafter. by rewrite apply_keeps_Directory.
  - intros Hafter. by rewrite apply_keeps_TableName.
Qed.

Lemma last_option_wins_witness :
  (apply defaultConfig
     [WithDirectory "a"; WithTableName "t"; WithDirectory "b"; WithLogger (slog_Custom 1)]
  ).(Directory) = "b"
  /\ (apply defaultConfig [WithLogger (slog_Custom 1)]).(TableName) = "gomigrate".
Proof.
  destruct (last_option_wins defaultConfig [SetDirectory "a"; SetTableName "t"]
              [SetLogger (slog_Custom 1)]) as (Hdir & _ & _ & _ & Htable).
  split.
  - apply (Hdir "b"). repeat constructor; exact (fun H => H).
  - apply Htable. repeat constructor; exact (fun H => H).
Defined.

(* ===================================================================== *)
(** * More on the executor and [Migrate]: the calls and the errors *)
(* ===================================================================== *)

Section CallFacts.
Context {W : Type} (db : Queryer W) (driver : Driver.t W) (fs : FS).

Lemma versionsWritten_app cs1 cs2 :
  versionsWritten (cs1 ++ cs2) = versionsWritten cs1 ++ versionsWritten cs2.
Proof. apply omap_app. Qed.

(** The calls of one run: those of a committed migration when it
    succeeds; otherwise some calls among which the version is written at
    most once. *)
Lemma execRun_calls m s r s' :
  execRun db driver fs m s r s' ->
  (r = None /\ s'.(calls) = s.(calls) ++ committedCalls fs m
   /\ versionsWritten (committedCalls fs m) = [m.(version)])
  \/ (r <> None
      /\ exists tail, s'.(calls) = s.(calls) ++ tail
           /\ (versionsWritten tail = [] \/ versionsWritten tail = [m.(version)])).
Proof.
  unfold committedCalls.
  destruct 1 as [err Hread
                |data err w1 Hread Hb
                |data tx w1 err w2 rb w3 Hread Hb He Hr
                |data tx w1 w2 err w3 rb w4 Hread Hb He Ha Hr
                |data tx w1 w2 w3 r w4 Hread Hb He Ha Hc]; cbn [world calls].
  - right. split; [done|]. exists []. rewrite app_nil_r. by split; [|left].
  - right. split; [done|]. exists [CallBeginTx]. by split; [|left].
  - right. split; [done|]. eexists. by split; [|left].
  - right. split; [done|]. eexists. by split; [|right].
  - rewrite Hread. destruct r as [err|].
    + right. split; [done|]. eexists. by split; [|right].
    + by left.
Qed.

Lemma applied_calls done s s1 :
  applied db driver fs done s s1 ->
  s1.(calls) = s.(calls) ++ concat (map (committedCalls fs) done)
  /\ versionsWritten (concat (map (committedCalls fs) done)) = map version done.
Proof.
  induction 1 as [s|m ms s s1 s2 Hexec _ [IHc IHv]]; simpl.
  - by rewrite app_nil_r.
  - pose proof (execMigration_run db driver fs m s) as Hrun. rewrite Hexec in Hrun.
    cbn [fst snd] in Hrun.
    apply execRun_calls in Hrun as [(_ & Hc & Hv)|[? _]]; [|done].
    split.
    + by rewrite IHc, Hc, <- app_assoc.
    + by rewrite versionsWritten_app, Hv, IHv.
Qed.

End CallFacts.

(** X11: the calls of a run of the loop of [Migrate] that returns no
    error are, for each migration above the stored version and in the
    order of the list: begin a transaction, execute the content of the
    file, write the version, commit; there is no other call, and the file
    of each of these migrations was readable. *)
Theorem successful_run_commits_each_pending_migration {W : Type} (db : Queryer W)
    (driver : Driver.t W) (fs : FS) (currentVersion : Z) (migrations : list migration)
    (s : state W) :
  (applyMigrations db driver fs currentVersion migrations s).1 = None ->
  (applyMigrations db driver fs currentVersion migrations s).2.(calls)
  = s.(calls) ++ concat (map (committedCalls fs) (pendingMigrations currentVersion migrations))
  /\ versionsWritten
       (concat (map (committedCalls fs) (pendingMigrations currentVersion migrations)))
     = map version (pendingMigrations currentVersion migrations).
Proof.
  intros Hok.
  destruct (applyMigrations_runs db driver fs currentVersion migrations s)
    as (done & s1 & Happlied & Hrest). cbv zeta in Hrest.
  destruct Hrest as [(_ & -> & ->)|(m & rest & err & _ & _ & Hr)]; [|congruence].
  exact (applied_calls db driver fs _ _ _ Happlied).
Qed.

Lemma successful_run_witness :
  (applyMigrations MemDB.db Sample.sqlite Sample.users 0
     [Sample.initial; Sample.add_email] Sample.fresh).1 = None
  /\ (applyMigrations MemDB.db Sample.sqlite Sample.users 0
        [Sample.initial; Sample.add_email] Sample.fresh).2.(calls)
     = [] ++ concat (map (committedCalls Sample.users)
                       (pendingMigrations 0 [Sample.initial; Sample.add_email])).
Proof.
  split; [reflexivity|].
  exact (proj1 (successful_run_commits_each_pending_migration MemDB.db Sample.sqlite
                  Sample.users 0 [Sample.initial; Sample.add_email] Sample.fresh eq_refl)).
Defined.

Lemma applyMigrations_written {W : Type} (db : Queryer W)
    (driver : Driver.t W) (fs : FS) (currentVersion : Z) (migrations : list migration)
    (s : state W) :
  exists tail,
    (applyMigrations db driver fs currentVersion migrations s).2.(calls) = s.(calls) ++ tail
    /\ versionsWritten tail
       `prefix_of` map version (pendingMigrations currentVersion migrations)
    /\ Forall (fun v => currentVersion < v) (versionsWritten tail).
Proof.
  assert (forall vs, vs `prefix_of` map version (pendingMigrations currentVersion migrations) ->
                     Forall (fun v => currentVersion < v) vs) as Habove.
  { intros vs [k Hk]. apply Forall_forall. intros v Hv.
    assert (v ∈ map version (pendingMigrations currentVersion migrations)) as Hin.
    { rewrite Hk. apply elem_of_app. by left. }
    change map with (@fmap list _) in Hin.
    apply list_elem_of_fmap in Hin as (m & -> & Hm).
    by apply list_elem_of_filter in Hm as [? _]. }
  destruct (applyMigrations_runs db driver fs currentVersion migrations s)
    as (done & s1 & Happlied & Hrest). cbv zeta in Hrest.
  apply (applied_calls db driver fs) in Happlied as [Hc Hv].
  destruct Hrest as [(_ & -> & ->)|(m & rest & err & Hpending & Hexec & _)].
  - eexists. split; [exact Hc|]. rewrite Hv. split; [done|]. by apply Habove.
  - pose proof (execMigration_run db driver fs m s1) as Hrun. rewrite Hexec in Hrun.
    cbn [fst snd] in Hrun.
    apply execRun_calls in Hrun as [[? _]|(_ & tail & Ht & Hw)]; [done|].
    exists (concat (map (committedCalls fs) done) ++ tail).
    assert (versionsWritten (concat (map (committedCalls fs) done) ++ tail)
            `prefix_of` map version (pendingMigrations currentVersion migrations)) as Hp.
    { rewrite versionsWritten_app, Hv, Hpending, map_app. simpl.
      destruct Hw as [-> | ->].
      - rewrite app_nil_r. by apply prefix_app_r.
      - exists (map version rest). by rewrite <- app_assoc. }
    split; [by rewrite Ht, Hc, <- app_assoc|]. split; [done|]. by apply Habove.
Qed.

(** X12: whatever a run of the loop of [Migrate] returns, the versions
    it writes are, in order, the versions of the first so many
    migrations above the stored version: no version at or below the
    stored one is written, none out of the order of the list, and none
    after a migration that failed. *)
Theorem written_versions_are_pending_in_order {W : Type} (db : Queryer W)
    (driver : Driver.t W) (fs : FS) (currentVersion : Z) (migrations : list migration)
    (s : state W) :
  exists tail,
    (applyMigrations db driver fs currentVersion migrations s).2.(calls) = s.(calls) ++ tail
    /\ versionsWritten tail
       `prefix_of` map version (pendingMigrations currentVersion migrations)
    /\ Forall (fun v => currentVersion < v) (versionsWritten tail).
Proof. apply applyMigrations_written. Qed.

(** X13: with a storage that keeps the work of a transaction apart until
    it commits, a run of the loop of [Migrate] that fails leaves what is
    durable exactly as the successful migrations before the failing one
    left it: the commits before stand and the failing migration leaves
    nothing. *)
Theorem failed_run_keeps_earlier_commits_only {W D : Type} (db : Queryer W)
    (driver : Driver.t W) (fs : FS) (durable : W -> D) (currentVersion : Z)
    (migrations : list migration) (s : state W) :
  Transactional db driver durable ->
  (applyMigrations db driver fs currentVersion migrations s).1 <> None ->
  exists done m rest s1,
    pendingMigrations currentVersion migrations = done ++ m :: rest
    /\ applied db driver fs done s s1
    /\ durable (applyMigrations db driver fs currentVersion migrations s).2.(world)
       = durable s1.(world).
Proof.
  intros Htx Herr.
  destruct (applyMigrations_runs db driver fs currentVersion migrations s)
    as (done & s1 & Happlied & Hrest). cbv zeta in Hrest.
  destruct Hrest as [(? & _)|(m & rest & err & Hpending & Hexec & _)]; [done|].
  exists done, m, rest, s1. split; [done|]. split; [done|].
  pose proof (execMigration_run db driver fs m s1) as Hrun. rewrite Hexec in Hrun.
    cbn [fst snd] in Hrun.
  by destruct (execRun_durable db driver fs durable m s1 _ _ Htx Hrun) as [?|[? _]].
Qed.

Lemma failed_run_witness :
  (applyMigrations MemDB.db Sample.sqlite Sample.broken 0
     [Sample.initial; Sample.add_email] Sample.fresh).1 <> None
  /\ MemDB.durable
       (applyMigrations MemDB.db Sample.sqlite Sample.broken 0
          [Sample.initial; Sample.add_email] Sample.fresh).2.(world)
     = ([], ["CREATE TABLE users (id INT)"], [1])
  /\ exists done m rest s1,
       pendingMigrations 0 [Sample.initial; Sample.add_email] = done ++ m :: rest
       /\ applied MemDB.db Sample.sqlite Sample.broken done Sample.fresh s1
       /\ MemDB.durable
            (applyMigrations MemDB.db Sample.sqlite Sample.broken 0
               [Sample.initial; Sample.add_email] Sample.fresh).2.(world)
          = MemDB.durable s1.(world).
Proof.
  assert ((applyMigrations MemDB.db Sample.sqlite Sample.broken 0
             [Sample.initial; Sample.add_email] Sample.fresh).1 <> None) as H
    by (vm_compute; discriminate).
  split; [exact H|]. split; [reflexivity|].
  exact (failed_run_keeps_earlier_commits_only MemDB.db Sample.sqlite Sample.broken
           MemDB.durable 0 [Sample.initial; Sample.add_email] Sample.fresh
           (MemDB_transactional "sqlite" defaultTableName) H).
Defined.



(* ===================================================================== *)
(** * The versions of the result *)
(* ===================================================================== *)

Section VersionFacts.
Context (dir activeDriver : string).

Lemma loadEntry_versions migrations entry migrations' v :
  loadEntry dir activeDriver migrations entry = Ok migrations' ->
  v ∈ map version migrations
  \/ (exists mig, candidate dir activeDriver entry = Some mig /\ mig.(version) = v) ->
  v ∈ map version migrations'.
Proof.
  intros Hload Hv.
  destruct (entry_cases dir activeDriver entry) as [Hbad|[(mig & Hc & _)|[Hp Hc]]].
  - destruct (loadEntry_malformed dir activeDriver migrations entry Hbad) as (? & _ & ?).
    congruence.
  - apply candidate_enumerates in Hc as Hmig.
    rewrite (loadEntry_enumerates _ _ _ _ _ Hmig) in Hload.
    assert (v ∈ map version migrations \/ v = version mig) as Hv'.
    { destruct Hv as [?|(mig' & Hc' & <-)]; [by left|right]. congruence. }
    clear Hv.
    destruct (slot_cases migrations (version mig)) as [Hnone|(i & m0 & Hslot)].
    + rewrite findVersion_none in Hload by done. injection Hload as <-.
      rewrite map_app. simpl. apply elem_of_app.
      destruct Hv' as [?| ->]; [by left|right; by left].
    + rewrite (findVersion_slot _ _ _ _ _ Hslot) in Hload.
      destruct Hslot as (Hi & Hv0 & _).
      assert (v ∈ map version migrations) as Hin.
      { destruct Hv' as [?| ->]; [done|]. rewrite <- Hv0.
        change (map version migrations) with (version <$> migrations).
        apply list_elem_of_fmap_2. by eapply list_elem_of_lookup_2. }
      destruct (String.eqb (driver m0) (driver mig)); [done|].
      destruct (String.eqb (driver mig) activeDriver); injection Hload as <-; [|done].
      by rewrite (map_version_insert _ _ m0).
  - rewrite (loadEntry_passedOver _ _ _ _ Hp) in Hload. injection Hload as <-.
    destruct Hv as [?|(mig & ? & _)]; [done|congruence].
Qed.

Lemma loadEntries_versions entries : forall migrations migrations' v,
  loadEntries dir activeDriver entries migrations = Ok migrations' ->
  v ∈ map version migrations
  \/ v ∈ map version (keptMigrations dir activeDriver entries) ->
  v ∈ map version migrations'.
Proof.
  induction entries as [|e entries IH]; intros ms ms' v Hload Hv.
  - injection Hload as <-. destruct Hv as [?|[]%elem_of_nil]. done.
  - simpl in Hload. destruct (loadEntry dir activeDriver ms e) as [ms1|] eqn:E; [|done].
    apply (IH ms1 ms' v Hload). unfold keptMigrations in Hv. simpl in Hv.
    destruct Hv as [Hv|Hv].
    + left. eapply loadEntry_versions; [exact E|by left].
    + destruct (candidate dir activeDriver e) as [mig|] eqn:Hc; [|by right].
      simpl in Hv. apply elem_of_cons in Hv as [->|Hv]; [|by right].
      left. eapply loadEntry_versions; [exact E|]. right. eauto.
Qed.

End VersionFacts.

(** X15: a resolution that succeeds loses no version: the versions of
    the result are exactly the versions of the kept migrations of the
    listing, also when a migration was replaced by the one for the active
    driver or dropped in favour of it. *)
Theorem resolution_keeps_every_version fs dir activeDriver entries migrations v :
  fs.(ReadDir) dir = Ok entries ->
  loadMigrations fs dir activeDriver = Ok migrations ->
  v ∈ map version migrations <-> v ∈ map version (keptMigrations dir activeDriver entries).
Proof.
  intros Hdir Hload. rewrite (loadMigrations_listing _ _ _ _ Hdir) in Hload.
  destruct (loadEntries dir activeDriver entries []) as [slice|] eqn:E; [|done].
  injection Hload as <-. change map with (@fmap list _). rewrite SortFunc_perm. split.
  - intros (m & -> & Hm)%list_elem_of_fmap.
    destruct (loadEntries_elements dir activeDriver _ _ _ _ E Hm)
      as [[]%elem_of_nil|(entry & He & Hmig)].
    apply list_elem_of_fmap_2, list_elem_of_omap. exists entry. split; [done|].
    by apply candidate_enumerates.
  - intros Hv. apply (loadEntries_versions dir activeDriver entries [] slice v E). by right.
Qed.

Lemma resolution_keeps_every_version_witness :
  map version (keptMigrations "migrations" "postgres"
                 (map Fixture.file ["1_a.sql"; "1_b.postgres.sql"; "1_c.sql"; "2_d.sql"]))
  = [1; 1; 1; 2]
  /\ (1 ∈ map version
             [ {| name := "b"; version := 1; driver := "postgres";
                  filePath := "migrations/1_b.postgres.sql" |};
               {| name := "d"; version := 2; driver := "";
                  filePath := "migrations/2_d.sql" |} ]
      <-> 1 ∈ map version
                (keptMigrations "migrations" "postgres"
                   (map Fixture.file ["1_a.sql"; "1_b.postgres.sql"; "1_c.sql"; "2_d.sql"]))).
Proof.
  split; [vm_compute; reflexivity|].
  refine (resolution_keeps_every_version
            (Fixture.listing "migrations" ["1_a.sql"; "1_b.postgres.sql"; "1_c.sql"; "2_d.sql"])
            "migrations" "postgres" _ _ 1 _ _).
  - reflexivity.
  - vm_compute. reflexivity.
Defined.


